(** * Verification of [longpage]: the sparse block container and the
    prefetch planner.

    Shallow embedding of [src/sparse_vec.rs] ([SparseVec], its [Iter]) and of
    [src/lib.rs] ([next_request_for_view]).

    Modelling choices:
    - [usize] values are [nat]; the only places where the source can overflow
      ([start + vec.len()] in [insert_vec], [in_view.end + extra_load] in the
      planner) are checked against [usize::MAX] of a 64-bit target, computed
      in [N] so that the check stays cheap, and an overflow is a panic (the
      debug-build semantics of Rust's [+]).
    - [assert!] failures and index panics are the [Panics] outcome.
    - A borrowed element [&T] is the element itself; an [Option<&T>] item of
      the iterator is an [option T].
    - [vec.iter().skip(k)] is the list of the elements it will still yield,
      [skipn k vec].
    - The [println!] in the planner is logging and has no effect on results. *)

From Stdlib Require Import List Arith Lia NArith Bool Sorting.Sorted Sorting.Permutation.
Import ListNotations.

(** ** Outcomes: normal return or panic *)

Inductive outcome (A : Type) : Type :=
| Returns (a : A)
| Panics.
Arguments Returns {A} a.
Arguments Panics {A}.

(** ** [usize] arithmetic *)

(** [usize::MAX] on a 64-bit target. *)
Definition usize_max : N := 18446744073709551615%N.

(** [true] when the [usize] addition producing [x] overflowed. *)
Definition overflows (x : nat) : bool := (usize_max <? N.of_nat x)%N.

(** ** [std::ops::Range<usize>] *)

Record range := mk_range { r_start : nat; r_end : nat }.

(** [Range::len] ([ExactSizeIterator]): [end - start], or 0 if [end <= start]. *)
Definition range_len (r : range) : nat := r_end r - r_start r.

Section SparseVec.

Context {T : Type}.

(** ** [SparseVec<T>] *)

Record SparseVec := mk_sparse_vec {
  sv_len : nat;
  (** each block starts at an offset and proceeds to the end of its Vec *)
  sv_blocks : list (nat * list T)
}.

Definition with_len (len : nat) : SparseVec :=
  {| sv_len := len; sv_blocks := [] |}.

(** [impl From<Vec<T>> for SparseVec<T>] *)
Definition from_vec (vec : list T) : SparseVec :=
  {| sv_len := length vec; sv_blocks := [(0, vec)] |}.

Definition len (s : SparseVec) : nat := sv_len s.

(** ** [Iter<'i, T>] *)

Record Iter := mk_iter {
  it_len : nat;                              (** where the iteration ends *)
  it_position : nat;                         (** where the next item comes from *)
  it_blocks : list (nat * list T);           (** remaining blocks *)
  it_block : option (nat * list T)           (** current block: offset, remaining elements *)
}.

Definition set_block (it : Iter) (b : option (nat * list T)) : Iter :=
  {| it_len := it_len it; it_position := it_position it;
     it_blocks := it_blocks it; it_block := b |}.

(** [Iter::next_block] *)
Definition next_block (it : Iter) : Iter :=
  match it_blocks it with
  | [] => {| it_len := it_len it; it_position := it_position it;
             it_blocks := []; it_block := None |}
  | (offset, vec) :: rest =>
      {| it_len := it_len it; it_position := it_position it;
         it_blocks := rest; it_block := Some (offset, vec) |}
  end.

(** The "after block" branch of [next]: move to the next block and read
    from it. *)
Definition next_after_block (position : nat) (it1 : Iter) : option T * Iter :=
  let it3 := next_block it1 in
  match it_block it3 with
  | Some (offset', block_iter') =>
      if position <? offset' then (None, it3)           (* in gap before block *)
      else match block_iter' with
           | next :: rest => (Some next, set_block it3 (Some (offset', rest)))
           | [] => (None, it3)                          (* after block *)
           end
  | None => (None, it3)                                 (* iter is empty *)
  end.

(** The [let result = ...] of [next], once a block has been fetched if
    there was none. *)
Definition next_item (position : nat) (it1 : Iter) : option T * Iter :=
  match it_block it1 with
  | Some (offset, block_iter) =>
      if position <? offset then (None, it1)            (* in gap before block *)
      else match block_iter with
           | next :: rest => (Some next, set_block it1 (Some (offset, rest)))
           | [] => next_after_block position it1        (* after block *)
           end
  | None => (None, it1)                                 (* iter is empty *)
  end.

(** [<Iter as Iterator>::next]: [None] when finished, otherwise the item and
    the iterator state after the call. *)
Definition iter_next (it : Iter) : option (option T * Iter) :=
  if it_len it <=? it_position it then None
  else
    let position := it_position it in
    let it1 := match it_block it with None => next_block it | Some _ => it end in
    let '(result, it2) := next_item position it1 in
    Some (result,
          {| it_len := it_len it2; it_position := S position;
             it_blocks := it_blocks it2; it_block := it_block it2 |}).

(** Collecting an iterator with at most [fuel] calls to [next]. *)
Fixpoint collect (fuel : nat) (it : Iter) : list (option T) :=
  match fuel with
  | 0 => []
  | S fuel' =>
      match iter_next it with
      | None => []
      | Some (x, it') => x :: collect fuel' it'
      end
  end.

(** [it.collect::<Vec<_>>()]: every call to [next] before the end advances
    the position by one, so [len - position] calls exhaust the iterator. *)
Definition iter_items (it : Iter) : list (option T) :=
  collect (it_len it - it_position it) it.

(** [SparseVec::iter] *)
Definition iter (s : SparseVec) : Iter :=
  {| it_len := sv_len s; it_position := 0;
     it_blocks := sv_blocks s; it_block := None |}.

(** The loop of [SparseVec::iter_range] that discards the blocks that come
    before the start: the block found (with its elements before [start]
    skipped) and the blocks after it. *)
Fixpoint discard_before (start : nat) (blocks : list (nat * list T))
  : option (nat * list T) * list (nat * list T) :=
  match blocks with
  | [] => (None, [])
  | (offset, vec) :: rest =>
      if start <? offset + length vec
      then (Some (offset, skipn (start - offset) vec), rest)
      else discard_before start rest
  end.

(** [SparseVec::iter_range] *)
Definition iter_range (s : SparseVec) (idxs : range) : Iter :=
  let '(block_iter, blocks_iter) := discard_before (r_start idxs) (sv_blocks s) in
  {| it_len := r_end idxs; it_position := r_start idxs;
     it_blocks := blocks_iter; it_block := block_iter |}.

(** [self.blocks.iter().position(|(offset, _)| *offset >= start)] *)
Fixpoint position_ge (start : nat) (blocks : list (nat * list T)) : option nat :=
  match blocks with
  | [] => None
  | (offset, _) :: rest =>
      if start <=? offset then Some 0
      else option_map S (position_ge start rest)
  end.

(** [Vec::insert] at an index [<= len] *)
Definition vec_insert {A} (i : nat) (x : A) (l : list A) : list A :=
  firstn i l ++ x :: skipn i l.

(** [SparseVec::insert_vec]: "Insert data into empty space. Panics if space
    is occupied". [self.blocks[insert_pos - 1]] panics out of range; the sum
    [offset + len] of a stored block cannot overflow (it was checked when the
    block was inserted, or it is [0 + vec.len()]). *)
Definition insert_vec (s : SparseVec) (start : nat) (vec : list T)
  : outcome SparseVec :=
  let blocks := sv_blocks s in
  let insert_pos := match position_ge start blocks with
                    | Some i => i
                    | None => length blocks
                    end in
  let first_ok :=
    match insert_pos with
    | 0 => Some true
    | S p => match nth_error blocks p with
             | Some (offset, v) => Some (offset + length v <=? start)
             | None => None
             end
    end in
  match first_ok with
  | None => Panics                          (* index out of bounds *)
  | Some false => Panics                    (* "Inserted vec overlaps existing block" *)
  | Some true =>
      if overflows (start + length vec) then Panics   (* attempt to add with overflow *)
      else
        let bound_ok :=
          match nth_error blocks insert_pos with
          | Some (offset, _) => start + length vec <=? offset
          | None => true                    (* [<= usize::MAX] holds for every usize *)
          end in
        if bound_ok
        then Returns {| sv_len := sv_len s;
                        sv_blocks := vec_insert insert_pos (start, vec) blocks |}
        else Panics                         (* "Inserted vec overlaps existing block" *)
  end.

(** States reached from a constructor by successful insertions. *)
Inductive reachable : SparseVec -> Prop :=
| reach_with_len n : reachable (with_len n)
| reach_from_vec v : reachable (from_vec v)
| reach_insert s start vec s' :
    reachable s -> insert_vec s start vec = Returns s' -> reachable s'.

(** ** [next_request_for_view] *)

(** The scan state: [longest_empty : Option<Range>] and
    [current_empty : Option<RangeFrom>] (its start). *)
Definition scan_state : Type := (option range * option nat)%type.

(** [longest_empty.as_ref().map_or(true, |l| l.len() < current_empty.len())] *)
Definition replaces (longest : option range) (current : range) : bool :=
  match longest with
  | None => true
  | Some l => range_len l <? range_len current
  end.

Definition update_longest (longest : option range) (current : range) : option range :=
  if replaces longest current then Some current else longest.

(** One iteration of the [for (i, item)] loop; [base] is [should_load.start]. *)
Definition scan_step (base i : nat) (item : option T) (st : scan_state) : scan_state :=
  let '(longest, current) := st in
  match item with
  | Some _ =>
      match current with
      | Some cs => (update_longest longest (mk_range cs (base + i)), None)
      | None => (longest, None)
      end
  | None =>
      match current with
      | None => (longest, Some (base + i))
      | Some cs => (longest, Some cs)
      end
  end.

(** The [for] loop over [enumerate()], [i] being the next index. *)
Fixpoint scan_loop (base i : nat) (items : list (option T)) (st : scan_state)
  : scan_state :=
  match items with
  | [] => st
  | item :: rest => scan_loop base (S i) rest (scan_step base i item st)
  end.

(** The loop followed by closing the run still in progress with
    [should_load.end]. *)
Definition longest_gap (should_load : range) (items : list (option T))
  : option range :=
  let '(longest, current) := scan_loop (r_start should_load) 0 items (None, None) in
  match current with
  | Some cs => update_longest longest (mk_range cs (r_end should_load))
  | None => longest
  end.

(** [next_request_for_view]; [checked_sub(..).unwrap_or(0)] is [nat]
    subtraction. *)
Definition next_request_for_view (data : SparseVec) (in_view : range)
  : outcome (option range) :=
  if range_len in_view =? 0 then Returns None
  else
    let extra_load := range_len in_view / 2 in
    if overflows (r_end in_view + extra_load) then Panics
    else
      let should_load :=
        mk_range (r_start in_view - extra_load)
                 (Nat.min (r_end in_view + extra_load) (len data)) in
      Returns (longest_gap should_load (iter_items (iter_range data should_load))).

End SparseVec.

Arguments SparseVec : clear implicits.
Arguments Iter : clear implicits.

(** ** The repository's tests, run on the model *)


Definition bind_insert {T} (o : outcome (SparseVec T)) (start : nat) (vec : list T)
  : outcome (SparseVec T) :=
  match o with Returns s => insert_vec s start vec | Panics => Panics end.

Example test_iterate_empty :
  iter_items (iter (@with_len nat 5)) = [None; None; None; None; None].
Proof. reflexivity. Qed.

Example test_iterate_full :
  iter_items (iter (from_vec [1;2;3;4;5])) = map Some [1;2;3;4;5].
Proof. reflexivity. Qed.

Example test_gapped_blocks :
  match bind_insert (insert_vec (with_len 5) 0 [1;2]) 3 [4;5] with
  | Returns s => iter_items (iter s) = [Some 1; Some 2; None; Some 4; Some 5]
  | Panics => False
  end.
Proof. vm_compute. reflexivity. Qed.

Example test_overlap_insert_before :
  bind_insert (insert_vec (with_len 5) 2 [3;4]) 0 [1;2;3] = Panics.
Proof. reflexivity. Qed.

Example test_overlap_insert_after :
  bind_insert (insert_vec (with_len 5) 0 [1;2;3]) 2 [3;4] = Panics.
Proof. reflexivity. Qed.

Example test_iter_range_half_before :
  match insert_vec (with_len 20) 10 (seq 10 10) with
  | Returns p => iter_items (iter_range p (mk_range 5 20))
                 = repeat None 5 ++ map Some (seq 10 10)
  | Panics => False
  end.
Proof. vm_compute. reflexivity. Qed.

Example test_request_half_after :
  match insert_vec (with_len 20) 0 (seq 0 10) with
  | Returns p => next_request_for_view p (mk_range 0 10) = Returns (Some (mk_range 10 15))
  | Panics => False
  end.
Proof. vm_compute. reflexivity. Qed.

Example test_request_half_before :
  match insert_vec (with_len 20) 10 (seq 10 10) with
  | Returns p => next_request_for_view p (mk_range 10 20) = Returns (Some (mk_range 5 10))
  | Panics => False
  end.
Proof. vm_compute. reflexivity. Qed.

Example test_request_half_either_side :
  next_request_for_view (@with_len nat 100) (mk_range 10 20) = Returns (Some (mk_range 5 25)).
Proof. vm_compute. reflexivity. Qed.

(** ** Properties of the block list *)

Section Blocks.

Context {T : Type}.

Implicit Types (bs pre post : list (nat * list T)) (b : nat * list T) (s : SparseVec T).

(** Block [b1] ends at or before the offset of block [b2]. *)
Definition before b1 b2 : Prop := fst b1 + length (snd b1) <= fst b2.

(** The data-model ordering: each block ends at or before the offset of the
    next one (touching blocks allowed). *)
Definition blocks_ordered bs : Prop :=
  forall i o1 d1 o2 d2,
    nth_error bs i = Some (o1, d1) -> nth_error bs (S i) = Some (o2, d2) ->
    o1 + length d1 <= o2.

(** Half-open index ranges [[s1, e1)] and [[s2, e2)] share an index. *)
Definition intersects (s1 e1 s2 e2 : nat) : Prop :=
  exists p, s1 <= p < e1 /\ s2 <= p < e2.

(** No previous block ends after [start] (the first assertion, read off the
    blocks before the insertion point). *)
Definition prev_ok (start : nat) pre : bool :=
  match rev pre with
  | [] => true
  | (offset, v) :: _ => offset + length v <=? start
  end.

(** The new block ends at or before the next block (the second assertion). *)
Definition next_ok (stop : nat) post : bool :=
  match post with
  | [] => true
  | (offset, _) :: _ => stop <=? offset
  end.

Lemma before_trans b1 b2 b3 : before b1 b2 -> before b2 b3 -> before b1 b3.
Proof. unfold before; lia. Qed.

Lemma ss_app_l {A} (R : A -> A -> Prop) l1 l2 :
  StronglySorted R (l1 ++ l2) -> StronglySorted R l2.
Proof.
  induction l1 as [|a l1 IH]; simpl; intros H; [exact H|].
  inversion H; subst; auto.
Qed.

Lemma ss_app_rel {A} (R : A -> A -> Prop) l1 l2 :
  StronglySorted R (l1 ++ l2) -> forall a c, In a l1 -> In c l2 -> R a c.
Proof.
  induction l1 as [|x l1 IH]; simpl; intros H a c Ha Hc; [contradiction|].
  inversion H as [|? ? Hs Hf]; subst.
  destruct Ha as [<-|Ha].
  - rewrite Forall_forall in Hf. apply Hf, in_or_app; auto.
  - eauto.
Qed.

Lemma ss_insert_middle pre x post :
  StronglySorted before (pre ++ post) ->
  (forall b, In b pre -> before b x) ->
  (forall b, In b post -> before x b) ->
  StronglySorted before (pre ++ x :: post).
Proof.
  induction pre as [|a pre IH]; simpl; intros Hs Hpre Hpost.
  - constructor; [exact Hs | apply Forall_forall; exact Hpost].
  - inversion Hs as [|? ? Hs' Hf]; subst.
    constructor; [apply IH; auto|].
    rewrite Forall_forall in *. intros c Hc.
    apply in_app_or in Hc as [Hc|[<-|Hc]]; auto using in_or_app.
Qed.

Lemma ss_blocks_ordered bs : StronglySorted before bs -> blocks_ordered bs.
Proof.
  induction bs as [|b bs IH]; intros Hs i o1 d1 o2 d2 H1 H2.
  - destruct i; discriminate.
  - inversion Hs as [|? ? Hs' Hf]; subst.
    destruct i as [|i]; simpl in H1, H2.
    + injection H1 as ->. rewrite Forall_forall in Hf.
      apply (Hf (o2, d2)). destruct bs as [|c bs]; [discriminate|].
      injection H2 as ->. left; reflexivity.
    + eapply IH; eauto.
Qed.

Lemma nth_error_as_skipn {A} (l : list A) n :
  nth_error l n = match skipn n l with [] => None | x :: _ => Some x end.
Proof.
  revert l; induction n as [|n IH]; intros [|x l]; simpl; auto.
Qed.

Lemma firstn_S_snoc {A} (l : list A) n x :
  nth_error l n = Some x -> firstn (S n) l = firstn n l ++ [x].
Proof.
  revert l; induction n as [|n IH]; intros [|y l] H; simpl in *; try discriminate.
  - injection H as ->. reflexivity.
  - f_equal. apply IH, H.
Qed.

(** The insertion point splits the blocks into those with an offset below
    [start] and those from the first with an offset at least [start]. *)
Lemma insert_pos_split start bs :
  let ip := match position_ge start bs with Some i => i | None => length bs end in
  ip <= length bs /\
  Forall (fun b => fst b < start) (firstn ip bs) /\
  (forall b rest, skipn ip bs = b :: rest -> start <= fst b).
Proof.
  induction bs as [|[o d] bs IH]; simpl.
  - repeat split; auto. intros ? ? H; discriminate.
  - destruct (Nat.leb_spec start o) as [Hle|Hlt]; simpl.
    + repeat split; [lia|constructor|]. intros b rest H. injection H as <- _. exact Hle.
    + destruct (position_ge start bs) as [i|]; simpl in *;
        destruct IH as (IH1 & IH2 & IH3); repeat split; auto; lia.
Qed.

(** [insert_vec] read as: split at the insertion point, check both
    assertions and the addition, insert. *)
Lemma insert_vec_split s start vec :
  exists pre post,
    sv_blocks s = pre ++ post /\
    Forall (fun b => fst b < start) pre /\
    (forall b rest, post = b :: rest -> start <= fst b) /\
    insert_vec s start vec =
      if prev_ok start pre && negb (overflows (start + length vec))
         && next_ok (start + length vec) post
      then Returns {| sv_len := sv_len s; sv_blocks := pre ++ (start, vec) :: post |}
      else Panics.
Proof.
  destruct (insert_pos_split start (sv_blocks s)) as (Hle & Hpre & Hpost).
  set (ip := match position_ge start (sv_blocks s) with
             | Some i => i | None => length (sv_blocks s) end) in *.
  exists (firstn ip (sv_blocks s)), (skipn ip (sv_blocks s)).
  split; [symmetry; apply firstn_skipn|]. split; [exact Hpre|]. split; [exact Hpost|].
  unfold insert_vec. fold ip. rewrite (nth_error_as_skipn _ ip).
  unfold vec_insert.
  destruct ip as [|p].
  - simpl. unfold prev_ok. simpl.
    destruct (overflows (start + length vec)); simpl; [reflexivity|].
    destruct (sv_blocks s) as [|[o d] bs]; reflexivity.
  - set (post := skipn (S p) (sv_blocks s)) in *. clearbody post.
    destruct (nth_error (sv_blocks s) p) as [[o d]|] eqn:Hp.
    2:{ apply nth_error_None in Hp. lia. }
    unfold prev_ok. rewrite (firstn_S_snoc _ _ _ Hp), rev_app_distr. simpl.
    destruct (o + length d <=? start); simpl; [|reflexivity].
    destruct (overflows (start + length vec)); simpl; [reflexivity|].
    destruct post as [|[o' d'] rest]; reflexivity.
Qed.

Lemma prev_ok_all start pre post :
  StronglySorted before (pre ++ post) -> prev_ok start pre = true ->
  forall b, In b pre -> fst b + length (snd b) <= start.
Proof.
  unfold prev_ok. intros Hs Hok b Hb.
  destruct (rev pre) as [|[o d] r] eqn:Hr.
  - apply (f_equal (@rev _)) in Hr. rewrite rev_involutive in Hr. subst. contradiction.
  - apply Nat.leb_le in Hok.
    apply (f_equal (@rev _)) in Hr. rewrite rev_involutive in Hr. subst pre. simpl in Hb.
    simpl in Hs. rewrite <- app_assoc in Hs.
    apply in_app_or in Hb as [Hb|[<-|[]]]; [|exact Hok].
    assert (before b (o, d)) by (eapply ss_app_rel; eauto; simpl; auto).
    unfold before in *. simpl in *. lia.
Qed.

Lemma next_bound_all k pre post :
  StronglySorted before (pre ++ post) ->
  (forall b rest, post = b :: rest -> k <= fst b) ->
  forall b, In b post -> k <= fst b.
Proof.
  intros Hs Hk b Hb. apply ss_app_l in Hs.
  destruct post as [|h rest]; [contradiction|].
  specialize (Hk h rest eq_refl).
  destruct Hb as [<-|Hb]; [exact Hk|].
  inversion Hs as [|? ? _ Hf]; subst. rewrite Forall_forall in Hf.
  specialize (Hf b Hb). unfold before in Hf. lia.
Qed.

Lemma reachable_sorted s : reachable s -> StronglySorted before (sv_blocks s).
Proof.
  induction 1 as [n|v|s start vec s' _ IH Hins].
  - constructor.
  - repeat constructor.
  - destruct (insert_vec_split s start vec) as (pre & post & Hbs & Hpre & Hpost & Heq).
    rewrite Hins in Heq. rewrite Hbs in IH.
    destruct (prev_ok start pre) eqn:Hp; simpl in Heq; [|discriminate].
    destruct (overflows (start + length vec)); simpl in Heq; [discriminate|].
    destruct (next_ok (start + length vec) post) eqn:Hn; [|discriminate].
    injection Heq as Heq. subst s'. simpl.
    apply ss_insert_middle; [exact IH| |].
    + intros b Hb. unfold before. simpl.
      pose proof (prev_ok_all _ _ _ IH Hp b Hb). lia.
    + intros b Hb. unfold before. simpl.
      refine (next_bound_all _ pre post IH _ b Hb).
      intros b' rest ->. simpl in Hn. destruct b' as [o d].
      apply Nat.leb_le in Hn. exact Hn.
Qed.

End Blocks.

(** ** The block list after insertions *)

Section Insertion.

Context {T : Type}.

(** The invariant the data model adds on top of the ordering: no block runs
    past the logical length. *)
Definition blocks_within_len (s : SparseVec T) : Prop :=
  forall o d, In (o, d) (sv_blocks s) -> o + length d <= sv_len s.

Lemma insert_vec_len (s s' : SparseVec T) start vec :
  insert_vec s start vec = Returns s' -> sv_len s' = sv_len s.
Proof.
  destruct (insert_vec_split s start vec) as (pre & post & _ & _ & _ & Heq).
  rewrite Heq. destruct (_ && _ && _); [|discriminate].
  intros H. injection H as <-. reflexivity.
Qed.

End Insertion.

(** C4 (amended): every reachable container keeps its blocks ordered, each
    block ending at or before the offset of the next (touching blocks
    allowed), and every successful [insert_vec] preserves this and the
    logical length, placing the new block as it is between the blocks
    before and after it (nothing merged, split or reordered); the blocks are
    not bounded by the logical length. *)
Theorem reachable_blocks_ordered {T} (s : SparseVec T) :
  reachable s ->
  blocks_ordered (sv_blocks s) /\
  (forall start vec s', insert_vec s start vec = Returns s' ->
     blocks_ordered (sv_blocks s') /\ sv_len s' = sv_len s /\
     exists pre post, sv_blocks s = pre ++ post /\
                      sv_blocks s' = pre ++ (start, vec) :: post).
Proof.
  intros Hr. split.
  - apply ss_blocks_ordered, reachable_sorted, Hr.
  - intros start vec s' Hins. split; [|split].
    + apply ss_blocks_ordered, reachable_sorted, (reach_insert _ _ _ _ Hr Hins).
    + eapply insert_vec_len; eauto.
    + destruct (insert_vec_split s start vec) as (pre & post & Hbs & _ & _ & Heq).
      exists pre, post. split; [exact Hbs|].
      rewrite Hins in Heq. destruct (_ && _ && _); [|discriminate].
      injection Heq as Heq. subst s'. reflexivity.
Qed.

Lemma reachable_blocks_ordered_witness :
  reachable (mk_sparse_vec 5 [(0, [1; 2]); (3, [4; 5])]) /\
  blocks_ordered (sv_blocks (mk_sparse_vec 5 [(0, [1; 2]); (3, [4; 5])])).
Proof.
  assert (Hr : reachable (mk_sparse_vec 5 [(0, [1; 2]); (3, [4; 5])])).
  { apply (reach_insert (mk_sparse_vec 5 [(0, [1; 2])]) 3 [4; 5]);
      [|reflexivity].
    apply (reach_insert (with_len 5) 0 [1; 2]); [constructor | reflexivity]. }
  split; [exact Hr | apply (proj1 (reachable_blocks_ordered _ Hr))].
Defined.

(** C4 as stated (ordering and every block within the logical length) fails:
    [insert_vec] never looks at the logical length, so [with_len 5] accepts a
    block [[3, 6)]. *)
Lemma blocks_exceed_logical_length :
  ~ (forall s : SparseVec nat, reachable s ->
       blocks_ordered (sv_blocks s) /\ blocks_within_len s).
Proof.
  intros H.
  assert (Hr : reachable (mk_sparse_vec 5 [(3, [1; 2; 3])])).
  { apply (reach_insert (with_len 5) 3 [1; 2; 3]); [constructor | reflexivity]. }
  destruct (H _ Hr) as [_ Hw].
  specialize (Hw 3 [1; 2; 3] (or_introl eq_refl)). simpl in Hw. lia.
Qed.

(** C2 (amended): on a reachable container, [insert_vec start vec] panics
    exactly when [start + len(vec)] overflows [usize], or some block [(o, d)]
    has [start] strictly inside it ([o < start < o + len d]) or begins
    inside the new span ([start <= o < start + len vec]); for non-empty
    blocks this is the intersection of the half-open spans. The condition
    depends only on the blocks present, not on the insertion order, and the
    logical length is not checked. *)
Theorem insert_vec_panics_iff {T} (s : SparseVec T) start vec :
  reachable s ->
  (insert_vec s start vec = Panics <->
   overflows (start + length vec) = true \/
   exists o d, In (o, d) (sv_blocks s) /\
     (o < start < o + length d \/ start <= o < start + length vec)).
Proof.
  intros Hr. pose proof (reachable_sorted _ Hr) as Hs.
  destruct (insert_vec_split s start vec) as (pre & post & Hbs & Hpre & Hpost & Heq).
  rewrite Hbs in Hs. rewrite Heq. split.
  - intros H. destruct (prev_ok start pre) eqn:Hp.
    + destruct (overflows (start + length vec)) eqn:Ho; [left; reflexivity|].
      destruct (next_ok (start + length vec) post) eqn:Hn; simpl in H; [discriminate|].
      right. destruct post as [|[o d] rest]; [discriminate|].
      exists o, d. split; [rewrite Hbs; apply in_or_app; right; left; reflexivity|].
      right. specialize (Hpost _ _ eq_refl). simpl in Hpost, Hn.
      apply Nat.leb_gt in Hn. lia.
    + right. unfold prev_ok in Hp.
      destruct (rev pre) as [|[o d] r] eqn:Hrev; [discriminate|].
      assert (Hin : In (o, d) pre) by (apply in_rev; rewrite Hrev; left; reflexivity).
      exists o, d. split; [rewrite Hbs; apply in_or_app; left; exact Hin|].
      left. rewrite Forall_forall in Hpre. specialize (Hpre _ Hin).
      apply Nat.leb_gt in Hp. simpl in Hpre. lia.
  - intros [Ho | (o & d & Hin & Hc)].
    + rewrite Ho. destruct (prev_ok start pre); reflexivity.
    + destruct (prev_ok start pre) eqn:Hp; [|reflexivity].
      destruct (overflows (start + length vec)); [reflexivity|].
      destruct (next_ok (start + length vec) post) eqn:Hn; [|reflexivity].
      exfalso. rewrite Hbs in Hin. apply in_app_or in Hin as [Hin|Hin].
      * pose proof (prev_ok_all _ _ _ Hs Hp _ Hin) as H1.
        rewrite Forall_forall in Hpre. specialize (Hpre _ Hin). simpl in *. lia.
      * assert (H1 : start + length vec <= o).
        { refine (next_bound_all _ pre post Hs _ (o, d) Hin).
          intros [o' d'] rest ->. simpl in Hn. apply Nat.leb_le, Hn. }
        pose proof (next_bound_all _ pre post Hs Hpost (o, d) Hin). simpl in *. lia.
Qed.

Lemma insert_vec_panics_iff_witness :
  reachable (mk_sparse_vec 5 [(2, [3; 4])]) /\
  (insert_vec (mk_sparse_vec 5 [(2, [3; 4])]) 0 [1; 2; 3] = Panics <->
   overflows (0 + length [1; 2; 3]) = true \/
   exists o d, In (o, d) (sv_blocks (mk_sparse_vec 5 [(2, [3; 4])])) /\
     (o < 0 < o + length d \/ 0 <= o < 0 + length [1; 2; 3])).
Proof.
  assert (Hr : reachable (mk_sparse_vec 5 [(2, [3; 4])])).
  { apply (reach_insert (with_len 5) 2 [3; 4]); [constructor | reflexivity]. }
  split; [exact Hr | apply (insert_vec_panics_iff _ 0 [1; 2; 3] Hr)].
Defined.

(** C2 as stated fails: an insertion running past the logical length is
    accepted. *)
Lemma insert_vec_ignores_logical_length :
  ~ (forall (s : SparseVec nat) start vec, reachable s ->
       (insert_vec s start vec = Panics <->
        (exists o d, In (o, d) (sv_blocks s) /\
           intersects start (start + length vec) o (o + length d)) \/
        sv_len s < start + length vec)).
Proof.
  intros H.
  assert (E : insert_vec (with_len 5) 3 [1; 2; 3] = Panics).
  { apply (H (with_len 5) 3 [1; 2; 3] (reach_with_len 5)). right. simpl. lia. }
  vm_compute in E. discriminate E.
Qed.

(** ** The iterator yields one item per position *)

Section IterLength.

Context {T : Type}.

Lemma next_item_len position (it1 : Iter T) :
  it_len (snd (next_item position it1)) = it_len it1.
Proof.
  unfold next_item, next_after_block, next_block, set_block.
  destruct (it_block it1) as [[o bi]|]; [|reflexivity].
  destruct (position <? o); [reflexivity|].
  destruct bi; [|reflexivity].
  destruct (it_blocks it1) as [|[o' v'] rest]; simpl; [reflexivity|].
  destruct (position <? o'); [reflexivity|]. destruct v'; reflexivity.
Qed.

Lemma iter_next_some (it : Iter T) :
  it_position it < it_len it ->
  exists x it', iter_next it = Some (x, it') /\
    it_len it' = it_len it /\ it_position it' = S (it_position it).
Proof.
  intros Hlt. unfold iter_next.
  destruct (Nat.leb_spec (it_len it) (it_position it)) as [Hle|_]; [lia|].
  set (it1 := match it_block it with None => next_block it | Some _ => it end).
  assert (H1 : it_len it1 = it_len it).
  { unfold it1, next_block. destruct (it_block it); [reflexivity|].
    destruct (it_blocks it) as [|[]]; reflexivity. }
  pose proof (next_item_len (it_position it) it1) as H2.
  destruct (next_item (it_position it) it1) as [x it2].
  eexists x, _. split; [reflexivity|]. simpl in *. split; congruence.
Qed.

Lemma collect_length n (it : Iter T) :
  n <= it_len it - it_position it -> length (collect n it) = n.
Proof.
  revert it; induction n as [|n IH]; intros it Hn; [reflexivity|].
  destruct (iter_next_some it) as (x & it' & Heq & Hl & Hp); [lia|].
  simpl. rewrite Heq. simpl. f_equal. apply IH. lia.
Qed.

Lemma iter_items_length (it : Iter T) :
  length (iter_items it) = it_len it - it_position it.
Proof. apply collect_length. lia. Qed.

Lemma iter_range_items_length (s : SparseVec T) (w : range) :
  length (iter_items (iter_range s w)) = r_end w - r_start w.
Proof.
  rewrite iter_items_length. unfold iter_range.
  destruct (discard_before (r_start w) (sv_blocks s)). reflexivity.
Qed.

End IterLength.

(** ** The gap scan of the planner *)

Section Scan.

Context {T : Type}.

(** The scan runs over [L], whose first item is at absolute index [a]. *)
Variables (a : nat) (L : list (option T)).

(** Absolute index [p] is scanned as absent. *)
Definition absent_at (p : nat) : bool :=
  match nth_error L (p - a) with Some None => true | _ => false end.

(** [r] is a non-empty run of absent indices in [[a, h)] that cannot be
    extended to the left. *)
Definition run_upto (h : nat) (r : range) : Prop :=
  a <= r_start r /\ r_start r < r_end r /\ r_end r <= h /\
  (forall p, r_start r <= p < r_end r -> absent_at p = true) /\
  (r_start r = a \/ absent_at (r_start r - 1) = false).

(** A run closed by a present item before [h]. *)
Definition closed_run (h : nat) (r : range) : Prop :=
  run_upto h r /\ r_end r < h /\ absent_at (r_end r) = false.

(** A maximal run of absent indices of the window [[a, e)]: it ends at [e]
    or at a present item. *)
Definition gap_run (e : nat) (r : range) : Prop :=
  run_upto e r /\ (r_end r = e \/ absent_at (r_end r) = false).

(** [l] has the greatest length among the runs [P], and every run of [P]
    starting before it is strictly shorter. *)
Definition first_longest (P : range -> Prop) (l : range) : Prop :=
  P l /\ (forall r, P r -> range_len r <= range_len l) /\
  (forall r, P r -> r_start r < r_start l -> range_len r < range_len l).

Definition longest_ok (P : range -> Prop) (lo : option range) : Prop :=
  match lo with
  | None => forall r, ~ P r
  | Some l => first_longest P l
  end.

(** The invariant of the loop after [k] items. *)
Definition scan_inv (k : nat) (st : scan_state) : Prop :=
  let '(lo, cur) := st in
  longest_ok (closed_run (a + k)) lo /\
  match cur with
  | None => (k = 0 \/ absent_at (a + k - 1) = false) /\
            (lo = None -> forall p, a <= p < a + k -> absent_at p = false)
  | Some cs => a <= cs < a + k /\ (forall p, cs <= p < a + k -> absent_at p = true) /\
               (cs = a \/ absent_at (cs - 1) = false)
  end.

Lemma absent_at_item k x : nth_error L k = Some x ->
  absent_at (a + k) = match x with None => true | Some _ => false end.
Proof.
  intros H. unfold absent_at. replace (a + k - a) with k by lia. rewrite H.
  destruct x; reflexivity.
Qed.

Lemma longest_ok_ext (P Q : range -> Prop) lo :
  (forall r, P r <-> Q r) -> longest_ok P lo -> longest_ok Q lo.
Proof.
  intros E. destruct lo as [l|]; simpl.
  - intros (H1 & H2 & H3). repeat split.
    + apply E, H1.
    + intros r Hr. apply H2, E, Hr.
    + intros r Hr. apply H3, E, Hr.
  - intros H r Hr. apply (H r), E, Hr.
Qed.

Lemma update_longest_some lo c : update_longest lo c <> None.
Proof.
  unfold update_longest, replaces.
  destruct lo as [l|]; [destruct (_ <? _)|]; discriminate.
Qed.

(** Adding a run [c] that starts after all previous runs. *)
Lemma update_longest_ok (P Q : range -> Prop) lo c :
  longest_ok P lo ->
  (forall r, Q r <-> P r \/ r = c) ->
  (forall r, P r -> r_start r < r_start c) ->
  longest_ok Q (update_longest lo c).
Proof.
  intros Hlo E Hbefore. unfold update_longest, replaces.
  destruct lo as [l|]; simpl in Hlo.
  - destruct Hlo as (Hl1 & Hl2 & Hl3).
    destruct (Nat.ltb_spec (range_len l) (range_len c)) as [Hlt|Hge]; simpl.
    + repeat split.
      * apply E. right. reflexivity.
      * intros r Hr. apply E in Hr as [Hr| ->]; [specialize (Hl2 r Hr); lia | lia].
      * intros r Hr Hs. apply E in Hr as [Hr| ->]; [specialize (Hl2 r Hr); lia | lia].
    + repeat split.
      * apply E. left. exact Hl1.
      * intros r Hr. apply E in Hr as [Hr| ->]; [apply Hl2, Hr | lia].
      * intros r Hr Hs. apply E in Hr as [Hr| ->]; [apply Hl3; assumption|].
        specialize (Hbefore l Hl1). lia.
  - repeat split.
    + apply E. right. reflexivity.
    + intros r Hr. apply E in Hr as [Hr| ->]; [destruct (Hlo r Hr) | lia].
    + intros r Hr Hs. apply E in Hr as [Hr| ->]; [destruct (Hlo r Hr) | lia].
Qed.

(** A run ending at [a + k] is the run in progress. *)
Lemma run_ending_unique k cs r :
  a <= cs < a + k -> (forall p, cs <= p < a + k -> absent_at p = true) ->
  (cs = a \/ absent_at (cs - 1) = false) ->
  run_upto (a + k) r -> r_end r = a + k -> r = mk_range cs (a + k).
Proof.
  intros Hcs Habs Hleft (H1 & H2 & H3 & H4 & H5) Hend.
  destruct r as [rs re]; simpl in *. subst re. f_equal.
  destruct (Nat.lt_trichotomy rs cs) as [Hlt|[Heq|Hgt]]; [|exact Heq|].
  - destruct Hleft as [Hleft|Hleft]; [lia|].
    rewrite (H4 (cs - 1)) in Hleft; [discriminate|lia].
  - destruct H5 as [H5|H5]; [lia|].
    rewrite (Habs (rs - 1)) in H5; [discriminate|lia].
Qed.

Lemma no_run_ending k r :
  (k = 0 \/ absent_at (a + k - 1) = false) ->
  run_upto (a + k) r -> r_end r = a + k -> False.
Proof.
  intros [Hk|Hk] (H1 & H2 & H3 & H4 & H5) Hend; [lia|].
  rewrite H4 in Hk; [discriminate|lia].
Qed.

Lemma closed_run_S k r :
  closed_run (a + S k) r <->
  closed_run (a + k) r \/
  (run_upto (a + k) r /\ r_end r = a + k /\ absent_at (a + k) = false).
Proof.
  unfold closed_run, run_upto. split.
  - intros ((H1 & H2 & H3 & H4 & H5) & H6 & H7).
    destruct (Nat.eq_dec (r_end r) (a + k)) as [He|He].
    + right. rewrite He in H7. repeat split; auto; lia.
    + left. repeat split; auto; lia.
  - intros [((H1 & H2 & H3 & H4 & H5) & H6 & H7) | ((H1 & H2 & H3 & H4 & H5) & H6 & H7)].
    + repeat split; auto; lia.
    + rewrite <- H6 in H7. repeat split; auto; lia.
Qed.

Lemma current_run k cs :
  a <= cs < a + k -> (forall p, cs <= p < a + k -> absent_at p = true) ->
  (cs = a \/ absent_at (cs - 1) = false) -> run_upto (a + k) (mk_range cs (a + k)).
Proof. intros Hcs Habs Hleft. unfold run_upto; simpl. repeat split; auto; lia. Qed.

Lemma closed_before_current k cs r :
  (forall p, cs <= p < a + k -> absent_at p = true) ->
  closed_run (a + k) r -> r_start r < cs.
Proof.
  intros Habs ((H1 & H2 & H3 & H4 & H5) & H6 & H7).
  destruct (Nat.lt_ge_cases (r_end r) cs); [lia|].
  rewrite Habs in H7; [discriminate|lia].
Qed.

Lemma gap_run_split e r :
  gap_run e r <-> closed_run e r \/ (run_upto e r /\ r_end r = e).
Proof.
  unfold gap_run, closed_run. split.
  - intros [Hr [He|Ha]]; [right; auto|].
    destruct (Nat.eq_dec (r_end r) e) as [He|He]; [right; auto|].
    left. split; [exact Hr|]. destruct Hr as (H1 & H2 & H3 & _). split; [lia|exact Ha].
  - intros [(Hr & _ & Ha) | (Hr & He)]; split; auto.
Qed.

Lemma scan_inv_step k x st :
  nth_error L k = Some x -> scan_inv k st -> scan_inv (S k) (scan_step a k x st).
Proof.
  intros Hx. pose proof (absent_at_item k x Hx) as Hab.
  destruct st as [lo cur]. intros [Hlo Hcur].
  destruct x as [v|]; destruct cur as [cs|]; simpl.
  - destruct Hcur as (Hcs & Habs & Hleft). split; [|split].
    + apply (update_longest_ok (closed_run (a + k))); [exact Hlo| |].
      * intro r. rewrite closed_run_S. split.
        -- intros [H|(H1 & H2 & _)]; [left; exact H|right].
           eapply run_ending_unique; eauto.
        -- intros [H| ->]; [left; exact H|right].
           split; [apply current_run; auto|]. split; [reflexivity|exact Hab].
      * intros r. apply closed_before_current with (k := k), Habs.
    + right. replace (a + S k - 1) with (a + k) by lia. exact Hab.
    + intros H. exfalso. eapply update_longest_some; eauto.
  - destruct Hcur as [Hk Hall]. split; [|split].
    + eapply longest_ok_ext; [|exact Hlo]. intro r. rewrite closed_run_S.
      split; [intros H; left; exact H|].
      intros [H|(H1 & H2 & _)]; [exact H|destruct (no_run_ending k r Hk H1 H2)].
    + right. replace (a + S k - 1) with (a + k) by lia. exact Hab.
    + intros Hn p Hp. destruct (Nat.eq_dec p (a + k)) as [->|]; [exact Hab|].
      apply Hall; [exact Hn|lia].
  - destruct Hcur as (Hcs & Habs & Hleft). split; [|split; [lia|split; [|exact Hleft]]].
    + eapply longest_ok_ext; [|exact Hlo]. intro r. rewrite closed_run_S.
      split; [intros H; left; exact H|].
      intros [H|(_ & _ & H3)]; [exact H|congruence].
    + intros p Hp. destruct (Nat.eq_dec p (a + k)) as [->|]; [exact Hab|].
      apply Habs; lia.
  - destruct Hcur as [Hk Hall]. split; [|split; [lia|split]].
    + eapply longest_ok_ext; [|exact Hlo]. intro r. rewrite closed_run_S.
      split; [intros H; left; exact H|].
      intros [H|(_ & _ & H3)]; [exact H|congruence].
    + intros p Hp. replace p with (a + k) by lia. exact Hab.
    + destruct Hk as [Hk|Hk]; [left; lia|right; exact Hk].
Qed.

Lemma scan_loop_snoc base i (l : list (option T)) x st :
  scan_loop base i (l ++ [x]) st = scan_step base (i + length l) x (scan_loop base i l st).
Proof.
  revert i st; induction l as [|y l IH]; intros i st; simpl.
  - rewrite Nat.add_0_r. reflexivity.
  - rewrite IH. f_equal. lia.
Qed.

Lemma scan_inv_loop k :
  k <= length L -> scan_inv k (scan_loop a 0 (firstn k L) (None, None)).
Proof.
  induction k as [|k IH]; intros Hk.
  - simpl. unfold scan_inv, longest_ok.
    split; [intros r ((H1 & H2 & H3 & _) & _); lia|].
    split; [left; reflexivity|]. intros _ p Hp; lia.
  - destruct (nth_error L k) as [x|] eqn:Hx; [|apply nth_error_None in Hx; lia].
    rewrite (firstn_S_snoc _ _ _ Hx), scan_loop_snoc, firstn_length_le by lia.
    apply scan_inv_step; [exact Hx|]. apply IH. lia.
Qed.

(** The scan, closing the last run with the window's end, returns the
    first longest maximal absent run of the window [[a, a + length L)], and
    [None] only when nothing in the window is absent. *)
Lemma longest_gap_correct :
  let res := longest_gap (mk_range a (a + length L)) L in
  longest_ok (gap_run (a + length L)) res /\
  (res = None -> forall p, a <= p < a + length L -> absent_at p = false).
Proof.
  pose proof (scan_inv_loop (length L) (le_n _)) as Hinv. rewrite firstn_all in Hinv.
  unfold longest_gap. simpl r_start; simpl r_end.
  destruct (scan_loop a 0 L (None, None)) as [lo cur]. destruct Hinv as [Hlo Hcur].
  destruct cur as [cs|].
  - destruct Hcur as (Hcs & Habs & Hleft). split.
    + apply (update_longest_ok (closed_run (a + length L))); [exact Hlo| |].
      * intro r. rewrite gap_run_split. split.
        -- intros [H|(H1 & H2)]; [left; exact H|right].
           eapply run_ending_unique; eauto.
        -- intros [H| ->]; [left; exact H|right].
           split; [apply current_run; auto|reflexivity].
      * intros r. apply closed_before_current with (k := length L), Habs.
    + intros H. exfalso. eapply update_longest_some; eauto.
  - destruct Hcur as [Hk Hall]. split; [|exact Hall].
    eapply longest_ok_ext; [|exact Hlo]. intro r. rewrite gap_run_split.
    split; [intros H; left; exact H|].
    intros [H|(H1 & H2)]; [exact H|destruct (no_run_ending _ r Hk H1 H2)].
Qed.

End Scan.

(** ** The planner *)

(** The should-load window of the spec: the view widened by
    [extra = len(view) / 2] on both sides, clamped to [[0, length)]
    (the [nat] subtraction is [max(0, start - extra)]). *)
Definition should_load_window {T} (data : SparseVec T) (view : range) : range :=
  let extra := range_len view / 2 in
  mk_range (r_start view - extra) (Nat.min (len data) (r_end view + extra)).

Section Planner.

Context {T : Type}.

Lemma next_request_for_view_scan (data : SparseVec T) view res :
  range_len view <> 0 ->
  next_request_for_view data view = Returns res ->
  res = longest_gap (should_load_window data view)
          (iter_items (iter_range data (should_load_window data view))).
Proof.
  intros Hne. unfold next_request_for_view, should_load_window.
  rewrite (proj2 (Nat.eqb_neq _ _) Hne).
  destruct (overflows _); [discriminate|].
  intros E. injection E as <-. rewrite (Nat.min_comm (len data)). reflexivity.
Qed.

Lemma longest_gap_nil (w : range) : longest_gap w (@nil (option T)) = None.
Proof. reflexivity. Qed.

(** The scanned items of a window [w] with [r_start w <= r_end w] fill it. *)
Lemma longest_gap_window (data : SparseVec T) (w : range) :
  r_start w <= r_end w ->
  let items := iter_items (iter_range data w) in
  r_start w + length items = r_end w /\
  longest_gap w items = longest_gap (mk_range (r_start w) (r_start w + length items)) items.
Proof.
  intros Hw items. unfold items. rewrite (iter_range_items_length data w).
  split; [lia|]. destruct w as [ws we]; simpl in *. do 3 f_equal. lia.
Qed.

Lemma longest_gap_empty_window (data : SparseVec T) (w : range) :
  r_end w < r_start w -> longest_gap w (iter_items (iter_range data w)) = None.
Proof.
  intros Hw. pose proof (iter_range_items_length data w) as Hl.
  destruct (iter_items (iter_range data w)); [reflexivity|]. simpl in Hl. lia.
Qed.

End Planner.

(** C5: for a non-empty view, when the planner returns it has scanned the
    window [[start', end')] with [extra = len(view) / 2],
    [start' = max(0, view.start - extra)] and
    [end' = min(length, view.end + extra)]; a returned range is non-empty,
    lies inside that window and so inside [[0, length)]. *)
Theorem next_request_for_view_window {T} (data : SparseVec T) (view : range) res :
  range_len view <> 0 ->
  next_request_for_view data view = Returns res ->
  let extra := range_len view / 2 in
  let start' := r_start view - extra in
  let end' := Nat.min (len data) (r_end view + extra) in
  res = longest_gap (mk_range start' end')
          (iter_items (iter_range data (mk_range start' end'))) /\
  (forall r, res = Some r ->
     start' <= r_start r /\ r_start r < r_end r /\ r_end r <= end' /\
     r_end r <= len data).
Proof.
  intros Hne Heq extra start' end'.
  pose proof (next_request_for_view_scan data view res Hne Heq) as Hres.
  change (should_load_window data view) with (mk_range start' end') in Hres.
  split; [exact Hres|]. intros r ->.
  destruct (le_lt_dec start' end') as [Hw|Hw].
  - destruct (longest_gap_window data (mk_range start' end') Hw) as [Hlen Hg].
    cbn [r_start r_end] in Hlen, Hg. rewrite Hg in Hres.
    pose proof (longest_gap_correct start' (iter_items (iter_range data (mk_range start' end'))))
      as Hc. cbv zeta in Hc. destruct Hc as [Hok _].
    rewrite <- Hres in Hok. destruct Hok as (((H1 & H2 & H3 & _) & _) & _).
    unfold end' in *. lia.
  - rewrite (longest_gap_empty_window data (mk_range start' end') Hw) in Hres.
    discriminate.
Qed.

Lemma next_request_for_view_window_witness :
  range_len (mk_range 0 10) <> 0 /\
  next_request_for_view (mk_sparse_vec 20 [(0, seq 0 10)]) (mk_range 0 10)
    = Returns (Some (mk_range 10 15)) /\
  (forall r, Some (mk_range 10 15) = Some r ->
     0 - 5 <= r_start r /\ r_start r < r_end r /\ r_end r <= Nat.min 20 (10 + 5) /\
     r_end r <= 20).
Proof.
  assert (H1 : range_len (mk_range 0 10) <> 0) by discriminate.
  assert (H2 : next_request_for_view (mk_sparse_vec 20 [(0, seq 0 10)]) (mk_range 0 10)
               = Returns (Some (mk_range 10 15))) by reflexivity.
  split; [exact H1|]. split; [exact H2|].
  exact (proj2 (next_request_for_view_window _ _ _ H1 H2)).
Defined.

(** C6: when some index of the should-load window is scanned as absent, the
    planner returns a maximal run of consecutive absent indices of the
    window (a run still open at the window's end is closed by [end']), no
    run is longer, and every run starting earlier is strictly shorter: the
    first run of maximal length wins and a later run of equal length never
    replaces it. Absence is what the planner's scan over
    [iter_range(start'..end')] reports. *)
Theorem next_request_for_view_first_longest {T} (data : SparseVec T) (view : range) res :
  range_len view <> 0 ->
  next_request_for_view data view = Returns res ->
  let w := should_load_window data view in
  let items := iter_items (iter_range data w) in
  (exists p, r_start w <= p < r_end w /\ absent_at (r_start w) items p = true) ->
  exists r, res = Some r /\ first_longest (gap_run (r_start w) items (r_end w)) r.
Proof.
  intros Hne Heq w items (p & Hp & Habs).
  pose proof (next_request_for_view_scan data view res Hne Heq) as Hres.
  fold w items in Hres.
  destruct (le_lt_dec (r_start w) (r_end w)) as [Hw|Hw]; [|lia].
  destruct (longest_gap_window data w Hw) as [Hlen Hg]. fold items in Hlen, Hg.
  rewrite Hg in Hres.
  pose proof (longest_gap_correct (r_start w) items) as Hc. cbv zeta in Hc.
  destruct Hc as [Hok Hnone].
  rewrite <- Hres, Hlen in Hok. rewrite <- Hres, Hlen in Hnone.
  destruct res as [r|].
  - exists r. split; [reflexivity|exact Hok].
  - rewrite (Hnone eq_refl p Hp) in Habs. discriminate.
Qed.

Lemma next_request_for_view_first_longest_witness :
  let data := mk_sparse_vec 20 [(0, seq 0 10)] in
  let w := should_load_window data (mk_range 0 10) in
  let items := iter_items (iter_range data w) in
  range_len (mk_range 0 10) <> 0 /\
  next_request_for_view data (mk_range 0 10) = Returns (Some (mk_range 10 15)) /\
  (exists p, r_start w <= p < r_end w /\ absent_at (r_start w) items p = true) /\
  exists r, Some (mk_range 10 15) = Some r /\
    first_longest (gap_run (r_start w) items (r_end w)) r.
Proof.
  intros data w items.
  assert (H1 : range_len (mk_range 0 10) <> 0) by discriminate.
  assert (H2 : next_request_for_view data (mk_range 0 10) = Returns (Some (mk_range 10 15)))
    by reflexivity.
  assert (H3 : exists p, r_start w <= p < r_end w /\ absent_at (r_start w) items p = true).
  { exists 12. split; [vm_compute; lia | reflexivity]. }
  split; [exact H1|]. split; [exact H2|]. split; [exact H3|].
  exact (next_request_for_view_first_longest data (mk_range 0 10) _ H1 H2 H3).
Defined.

(** ** Reading past two exhausted blocks *)

(** Index [p] lies in the span of a block of [s]. *)
Definition covered {T} (s : SparseVec T) (p : nat) : Prop :=
  exists o d, In (o, d) (sv_blocks s) /\ o <= p < o + length d.

(** Length 1; [insert_vec(0, [5])], then twice [insert_vec(0, [])]. *)
Definition two_empty_before_five : SparseVec nat :=
  mk_sparse_vec 1 [(0, []); (0, []); (0, [5])].

Lemma two_empty_before_five_reachable : reachable two_empty_before_five.
Proof.
  apply (reach_insert (mk_sparse_vec 1 [(0, []); (0, [5])]) 0 []); [|reflexivity].
  apply (reach_insert (mk_sparse_vec 1 [(0, [5])]) 0 []); [|reflexivity].
  apply (reach_insert (with_len 1) 0 [5]); [constructor|reflexivity].
Qed.

(** C1 (code bug): on the reachable container [two_empty_before_five],
    [iter_range(0..1)] yields [[Some 5]] while [iter().skip(0).take(1)]
    yields [[None]]: [next] moves past at most one exhausted block per
    call, [iter] enters the two empty blocks at index 0 and reports the
    index absent, whereas [iter_range] discards them first. *)
Theorem iter_range_differs_from_iter_skip_take :
  reachable two_empty_before_five /\
  iter_items (iter_range two_empty_before_five (mk_range 0 1)) = [Some 5] /\
  firstn (1 - 0) (skipn 0 (iter_items (iter two_empty_before_five))) = [None].
Proof.
  split; [exact two_empty_before_five_reachable|]. split; reflexivity.
Qed.

(** C3 (code bug): the same container has index 0 in the span of the block
    [(0, [5])], and [iter()] yields [[None]] for it. *)
Theorem iter_misses_value_after_empty_blocks :
  reachable two_empty_before_five /\
  In (0, [5]) (sv_blocks two_empty_before_five) /\
  iter_items (iter two_empty_before_five) = [None].
Proof.
  split; [exact two_empty_before_five_reachable|].
  split; [right; right; left; reflexivity | reflexivity].
Qed.

(** Length 2 with [[1]] at 0; then [insert_vec(1, [3])] and
    [insert_vec(1, [])]. *)
Definition filled_after_empty : SparseVec nat :=
  mk_sparse_vec 2 [(0, [1]); (1, []); (1, [3])].

Lemma filled_after_empty_reachable : reachable filled_after_empty.
Proof.
  apply (reach_insert (mk_sparse_vec 2 [(0, [1]); (1, [3])]) 1 []); [|reflexivity].
  apply (reach_insert (mk_sparse_vec 2 [(0, [1])]) 1 [3]); [|reflexivity].
  apply (reach_insert (with_len 2) 0 [1]); [constructor|reflexivity].
Qed.

Lemma filled_after_empty_covered p : p < 2 -> covered filled_after_empty p.
Proof.
  intros Hp. destruct p as [|[|p]]; [| |lia].
  - exists 0, [1]. split; [left; reflexivity|simpl; lia].
  - exists 1, [3]. split; [right; right; left; reflexivity|simpl; lia].
Qed.

(** C7 (code bug): for the view [0..2] of [filled_after_empty] the
    should-load window is [[0, 2)], every index of it lies in a block, and
    the planner still returns [Some(1..2)]: the scan reads index 1 through
    the empty block [(1, [])] and reports it absent. *)
Theorem next_request_for_view_covered_window_not_none :
  reachable filled_after_empty /\
  should_load_window filled_after_empty (mk_range 0 2) = mk_range 0 2 /\
  (forall p, 0 <= p < 2 -> covered filled_after_empty p) /\
  next_request_for_view filled_after_empty (mk_range 0 2) = Returns (Some (mk_range 1 2)).
Proof.
  split; [exact filled_after_empty_reachable|]. split; [reflexivity|].
  split; [intros p Hp; apply filled_after_empty_covered; lia | reflexivity].
Qed.

(** C9 (code bug): the planner returns [1..2] for the view [0..2] of the
    container holding [[1]] at 0; after [insert_vec(1, [3])] and
    [insert_vec(1, [])] index 1 lies in a block, and the planner returns
    [1..2] again. *)
Theorem next_request_for_view_reports_filled_gap :
  next_request_for_view (mk_sparse_vec 2 [(0, [1])]) (mk_range 0 2)
    = Returns (Some (mk_range 1 2)) /\
  bind_insert (insert_vec (mk_sparse_vec 2 [(0, [1])]) 1 [3]) 1 []
    = Returns filled_after_empty /\
  reachable filled_after_empty /\
  covered filled_after_empty 1 /\
  next_request_for_view filled_after_empty (mk_range 0 2) = Returns (Some (mk_range 1 2)).
Proof.
  split; [reflexivity|]. split; [reflexivity|].
  split; [exact filled_after_empty_reachable|].
  split; [apply filled_after_empty_covered; lia | reflexivity].
Qed.

(** Length 3; [insert_vec] of [(0, [1, 2])], [(2, [3])], [(2, [])],
    [(0, [])] and [(0, [])]. *)
Definition shifted_blocks : SparseVec nat :=
  mk_sparse_vec 3 [(0, []); (0, []); (0, [1; 2]); (2, []); (2, [3])].

Lemma shifted_blocks_reachable : reachable shifted_blocks.
Proof.
  apply (reach_insert (mk_sparse_vec 3 [(0, []); (0, [1; 2]); (2, []); (2, [3])]) 0 []);
    [|reflexivity].
  apply (reach_insert (mk_sparse_vec 3 [(0, [1; 2]); (2, []); (2, [3])]) 0 []);
    [|reflexivity].
  apply (reach_insert (mk_sparse_vec 3 [(0, [1; 2]); (2, [3])]) 2 []); [|reflexivity].
  apply (reach_insert (mk_sparse_vec 3 [(0, [1; 2])]) 2 [3]); [|reflexivity].
  apply (reach_insert (with_len 3) 0 [1; 2]); [constructor|reflexivity].
Qed.

(** C10 (code bug): for the view [0..3] of [shifted_blocks] the planner
    returns [2..3], yet index 2 lies in the block [(2, [3])] and [iter()]
    reports it present (with the value [2], shifted by its own misreading of
    the empty blocks at 0). *)
Theorem next_request_for_view_returns_populated_index :
  reachable shifted_blocks /\
  next_request_for_view shifted_blocks (mk_range 0 3) = Returns (Some (mk_range 2 3)) /\
  covered shifted_blocks 2 /\
  nth_error (iter_items (iter shifted_blocks)) 2 = Some (Some 2).
Proof.
  split; [exact shifted_blocks_reachable|]. split; [reflexivity|].
  split; [|reflexivity].
  exists 2, [3]. split; [do 4 right; left; reflexivity | simpl; lia].
Qed.

(** ** Overflow of the window's end *)

Lemma next_request_for_view_overflow {T} (data : SparseVec T) (view : range) :
  range_len view <> 0 ->
  overflows (r_end view + range_len view / 2) = true ->
  next_request_for_view data view = Panics.
Proof.
  intros Hne Ho. unfold next_request_for_view.
  rewrite (proj2 (Nat.eqb_neq _ _) Hne), Ho. reflexivity.
Qed.

(** C8 (code bug): for a container of length [usize::MAX] and the view
    [usize::MAX - 10 .. usize::MAX] inside [[0, length)], the planner
    panics: [in_view.end + extra_load] overflows, where the start of the
    window uses [checked_sub]. *)
Theorem next_request_for_view_overflows_at_max :
  N.to_nat usize_max - 10 < N.to_nat usize_max /\
  N.to_nat usize_max <= len (@with_len nat (N.to_nat usize_max)) /\
  next_request_for_view (@with_len nat (N.to_nat usize_max))
    (mk_range (N.to_nat usize_max - 10) (N.to_nat usize_max)) = Panics.
Proof.
  assert (Hbig : 10 <= N.to_nat usize_max) by (unfold usize_max; lia).
  assert (Hl : range_len (mk_range (N.to_nat usize_max - 10) (N.to_nat usize_max)) = 10)
    by (unfold range_len; cbn [r_start r_end]; lia).
  split; [lia|]. split; [unfold len, with_len; cbn [sv_len]; lia|].
  apply next_request_for_view_overflow; [rewrite Hl; discriminate|].
  rewrite Hl. cbn [r_end]. replace (10 / 2) with 5 by reflexivity.
  unfold overflows. apply N.ltb_lt. unfold usize_max. lia.
Qed.

(** ** Iteration over containers without empty blocks *)

(** Case on every comparison of the goal, dropping the impossible cases. *)
Ltac decide_cmp :=
  repeat match goal with
         | |- context [?a <=? ?b] => destruct (Nat.leb_spec a b)
         | |- context [?a <? ?b] => destruct (Nat.ltb_spec a b)
         end; cbn [andb]; try lia.

Section Values.

Context {T : Type}.

Implicit Types (bs : list (nat * list T)) (s : SparseVec T) (it : Iter T).

(** Reference lookup: the element at index [p] of the first block whose
    span contains [p]. *)
Fixpoint value_in bs (p : nat) : option T :=
  match bs with
  | [] => None
  | (o, d) :: rest =>
      if (o <=? p) && (p <? o + length d) then nth_error d (p - o)
      else value_in rest p
  end.

Definition value_at s (p : nat) : option T := value_in (sv_blocks s) p.

(** The blocks an iterator still has to read, the current one starting at
    the iterator's position once it has been entered. *)
Definition cur_blocks it : list (nat * list T) :=
  match it_block it with
  | Some (o, rem) => (Nat.max o (it_position it), rem) :: it_blocks it
  | None => it_blocks it
  end.

(** The iterator will read the values [f p] from its position on. *)
Definition iter_inv (f : nat -> option T) it : Prop :=
  (forall p, it_position it <= p -> f p = value_in (cur_blocks it) p) /\
  StronglySorted before (cur_blocks it) /\
  Forall (fun b => it_position it <= fst b) (cur_blocks it) /\
  Forall (fun b => snd b <> []) (it_blocks it).

Lemma value_in_before bs p :
  Forall (fun b => p < fst b) bs -> value_in bs p = None.
Proof.
  induction bs as [|[o d] bs IH]; intros H; [reflexivity|].
  inversion H as [|? ? Hb Hr]; subst. simpl in Hb. simpl.
  destruct (Nat.leb_spec o p); [lia|]. simpl. apply IH, Hr.
Qed.

Lemma value_in_past o d bs p :
  o + length d <= p -> value_in ((o, d) :: bs) p = value_in bs p.
Proof.
  intros H. simpl. destruct (Nat.ltb_spec p (o + length d)); [lia|].
  rewrite andb_false_r. reflexivity.
Qed.

Lemma value_in_cons_step pos x rem bs p :
  S pos <= p -> value_in ((pos, x :: rem) :: bs) p = value_in ((S pos, rem) :: bs) p.
Proof.
  intros H. cbn [value_in length]. decide_cmp.
  - replace (p - pos) with (S (p - S pos)) by lia. reflexivity.
  - reflexivity.
Qed.

Lemma value_in_skip o d k bs p :
  o + k <= p -> k <= length d ->
  value_in ((o, d) :: bs) p = value_in ((o + k, skipn k d) :: bs) p.
Proof.
  intros H Hk. cbn [value_in]. rewrite length_skipn. decide_cmp.
  - rewrite nth_error_skipn. f_equal. lia.
  - reflexivity.
Qed.

Lemma forall_offsets_from_sorted b bs :
  StronglySorted before (b :: bs) -> Forall (fun c => fst b + length (snd b) <= fst c) bs.
Proof.
  intros Hs. inversion Hs as [|? ? _ Hf]; subst.
  eapply Forall_impl; [|exact Hf]. intros c Hc. exact Hc.
Qed.

End Values.

Section IterValues.

Context {T : Type}.

Implicit Types (bs : list (nat * list T)) (s : SparseVec T) (it : Iter T).

Lemma sorted_shrink_head o d o' d' bs :
  StronglySorted before ((o, d) :: bs) -> o' + length d' <= o + length d ->
  StronglySorted before ((o', d') :: bs).
Proof.
  intros Hs Hle. inversion Hs as [|? ? Hs' Hf]; subst. constructor; [exact Hs'|].
  eapply Forall_impl; [|exact Hf]. unfold before; simpl. intros c Hc. lia.
Qed.

Lemma sorted_tail_offsets q o d bs :
  StronglySorted before ((o, d) :: bs) -> q <= o + length d ->
  Forall (fun c => q <= fst c) bs.
Proof.
  intros Hs Hq. inversion Hs as [|? ? _ Hf]; subst.
  eapply Forall_impl; [|exact Hf]. unfold before; simpl. intros c Hc. lia.
Qed.

Lemma enter_block_inv f it :
  iter_inv f it ->
  let it1 := match it_block it with None => next_block it | Some _ => it end in
  iter_inv f it1 /\ it_position it1 = it_position it /\ it_len it1 = it_len it /\
  (it_block it1 = None -> it_blocks it1 = []).
Proof.
  destruct it as [l pos bs [[o rem]|]]; intros Hinv; cbn.
  - repeat split; try apply Hinv. discriminate.
  - unfold next_block; cbn. destruct bs as [|[o d] rest]; [repeat split; auto; apply Hinv|].
    destruct Hinv as (Hv & Hs & Hoff & Hne). unfold iter_inv, cur_blocks in *; cbn in *.
    inversion Hoff as [|? ? Ho _]; subst. cbn in Ho. rewrite Nat.max_l by lia.
    inversion Hne as [|? ? _ Hne']; subst.
    repeat split; auto. discriminate.
Qed.

Lemma next_item_inv f it1 :
  iter_inv f it1 -> (it_block it1 = None -> it_blocks it1 = []) ->
  let '(x, it2) := next_item (it_position it1) it1 in
  x = f (it_position it1) /\
  iter_inv f {| it_len := it_len it2; it_position := S (it_position it1);
                it_blocks := it_blocks it2; it_block := it_block it2 |}.
Proof.
  destruct it1 as [l pos bs blk]. intros (Hv & Hs & Hoff & Hne) Hnone.
  unfold cur_blocks in *; cbn in *.
  destruct blk as [[o rem]|].
  2:{ specialize (Hnone eq_refl). subst bs. unfold next_item; cbn.
      split; [rewrite (Hv pos (le_n _)); reflexivity|].
      unfold iter_inv, cur_blocks; cbn. repeat split; auto.
      intros p Hp. apply Hv. lia. }
  unfold next_item; cbn [it_block]. destruct (Nat.ltb_spec pos o) as [Hlt|Hge].
  - rewrite Nat.max_l in Hv, Hs, Hoff by lia. split.
    + rewrite (Hv pos (le_n _)). symmetry. apply value_in_before.
      constructor; [simpl; lia|]. eapply sorted_tail_offsets; [exact Hs|lia].
    + unfold iter_inv, cur_blocks; cbn. rewrite Nat.max_l by lia.
      repeat split; auto.
      * intros p Hp. apply Hv. lia.
      * constructor; [simpl; lia|]. eapply sorted_tail_offsets; [exact Hs|lia].
  - rewrite Nat.max_r in Hv, Hs, Hoff by lia.
    destruct rem as [|x rem'].
    + unfold next_after_block, next_block; cbn [it_blocks it_block].
      destruct bs as [|[o' d'] rest]; cbn [it_block].
      * split.
        -- rewrite (Hv pos (le_n _)), value_in_past by (simpl; lia). reflexivity.
        -- unfold iter_inv, cur_blocks; cbn. repeat split; auto.
           ++ intros p Hp. rewrite (Hv p), value_in_past by (simpl; lia). reflexivity.
           ++ constructor.
      * inversion Hoff as [|? ? _ Hoff']; subst. inversion Hoff' as [|? ? Ho' Hoff'']; subst.
        cbn in Ho'. inversion Hne as [|? ? Hd' Hne']; subst. cbn in Hd'.
        inversion Hs as [|? ? Hs' _]; subst.
        destruct (Nat.ltb_spec pos o') as [Hlt'|Hge'].
        -- split.
           ++ rewrite (Hv pos (le_n _)), value_in_past by (simpl; lia).
              symmetry. apply value_in_before.
              constructor; [simpl; lia|]. eapply sorted_tail_offsets; [exact Hs'|lia].
           ++ unfold iter_inv, cur_blocks; cbn. rewrite Nat.max_l by lia.
              repeat split; auto.
              ** intros p Hp. rewrite (Hv p), value_in_past by (simpl; lia). reflexivity.
              ** constructor; [simpl; lia|]. eapply sorted_tail_offsets; [exact Hs'|lia].
        -- assert (o' = pos) by lia. subst o'.
           destruct d' as [|y d'']; [congruence|]. split.
           ++ rewrite (Hv pos (le_n _)), value_in_past by (simpl; lia).
              cbn [value_in length]. decide_cmp. rewrite Nat.sub_diag. reflexivity.
           ++ unfold iter_inv, cur_blocks; cbn. rewrite Nat.max_r by lia.
              repeat split; auto.
              ** intros p Hp. rewrite (Hv p), value_in_past by (simpl; lia).
                 apply value_in_cons_step. lia.
              ** eapply sorted_shrink_head; [exact Hs'|simpl; lia].
              ** constructor; [simpl; lia|]. eapply sorted_tail_offsets; [exact Hs'|simpl; lia].
    + split.
      * rewrite (Hv pos (le_n _)). cbn [value_in length]. decide_cmp.
        rewrite Nat.sub_diag. reflexivity.
      * unfold iter_inv, cur_blocks; cbn. rewrite Nat.max_r by lia.
        repeat split; auto.
        -- intros p Hp. rewrite (Hv p) by lia. apply value_in_cons_step. lia.
        -- eapply sorted_shrink_head; [exact Hs|simpl; lia].
        -- constructor; [simpl; lia|]. eapply sorted_tail_offsets; [exact Hs|simpl; lia].
Qed.

Lemma iter_next_inv f it :
  iter_inv f it -> it_position it < it_len it ->
  exists it', iter_next it = Some (f (it_position it), it') /\ iter_inv f it' /\
    it_len it' = it_len it /\ it_position it' = S (it_position it).
Proof.
  intros Hinv Hlt. unfold iter_next.
  destruct (Nat.leb_spec (it_len it) (it_position it)) as [Hle|_]; [lia|].
  pose proof (enter_block_inv f it Hinv) as He. cbv zeta in He.
  set (it1 := match it_block it with None => next_block it | Some _ => it end) in *.
  destruct He as (Hinv1 & Hpos & Hlen & Hnone).
  pose proof (next_item_inv f it1 Hinv1 Hnone) as Hn. rewrite Hpos in Hn.
  pose proof (next_item_len (it_position it) it1) as Hl.
  destruct (next_item (it_position it) it1) as [x it2]. destruct Hn as [-> Hinv2].
  eexists. split; [reflexivity|]. split; [exact Hinv2|].
  cbn in Hl |- *. split; [congruence|reflexivity].
Qed.

Lemma collect_inv f n it :
  iter_inv f it -> n <= it_len it - it_position it ->
  collect n it = map f (seq (it_position it) n).
Proof.
  revert it; induction n as [|n IH]; intros it Hinv Hn; [reflexivity|].
  destruct (iter_next_inv f it) as (it' & Heq & Hinv' & Hl & Hp); [exact Hinv|lia|].
  simpl. rewrite Heq. f_equal. rewrite (IH it' Hinv') by lia. rewrite Hp. reflexivity.
Qed.

Lemma iter_items_inv f it :
  iter_inv f it ->
  iter_items it = map f (seq (it_position it) (it_len it - it_position it)).
Proof. intros Hinv. apply collect_inv; [exact Hinv|lia]. Qed.

Lemma iter_inv_iter s :
  StronglySorted before (sv_blocks s) -> Forall (fun b => snd b <> []) (sv_blocks s) ->
  iter_inv (value_at s) (iter s).
Proof.
  intros Hs Hne. unfold iter_inv, cur_blocks, iter, value_at; cbn.
  repeat split; auto. apply Forall_forall. intros; lia.
Qed.

Lemma discard_before_inv start bs l :
  StronglySorted before bs -> Forall (fun b => snd b <> []) bs ->
  iter_inv (value_in bs)
    {| it_len := l; it_position := start;
       it_blocks := snd (discard_before start bs); it_block := fst (discard_before start bs) |}.
Proof.
  induction bs as [|[o d] rest IH]; intros Hs Hne.
  - unfold iter_inv, cur_blocks; cbn. repeat split; auto; constructor.
  - cbn [discard_before]. destruct (Nat.ltb_spec start (o + length d)) as [Hin|Hout].
    + inversion Hne as [|? ? _ Hne']; subst.
      unfold iter_inv, cur_blocks; cbn [fst snd it_block it_blocks it_position].
      repeat split.
      * intros p Hp. destruct (Nat.le_gt_cases start o).
        -- replace (start - o) with 0 by lia. rewrite Nat.max_l by lia. reflexivity.
        -- rewrite Nat.max_r by lia. rewrite (value_in_skip o d (start - o)) by lia.
           replace (o + (start - o)) with start by lia. reflexivity.
      * eapply sorted_shrink_head; [exact Hs|]. rewrite length_skipn. lia.
      * constructor; [simpl; lia|]. eapply sorted_tail_offsets; [exact Hs|lia].
      * exact Hne'.
    + inversion Hs as [|? ? Hs' _]; inversion Hne as [|? ? _ Hne']; subst.
      destruct (IH Hs' Hne') as (Hv & Hrest).
      split; [|exact Hrest]. intros p Hp. cbn in Hp.
      rewrite value_in_past by lia. apply Hv. exact Hp.
Qed.

Lemma iter_inv_range s r :
  StronglySorted before (sv_blocks s) -> Forall (fun b => snd b <> []) (sv_blocks s) ->
  iter_inv (value_at s) (iter_range s r).
Proof.
  intros Hs Hne. pose proof (discard_before_inv (r_start r) (sv_blocks s) (r_end r) Hs Hne) as H.
  unfold iter_range, value_at. destruct (discard_before (r_start r) (sv_blocks s)). exact H.
Qed.

End IterValues.

(** ** Lookup, iteration and planning on well-formed containers *)

Section Lookup.

Context {T : Type}.

Implicit Types (bs pre post : list (nat * list T)) (d vec : list T) (s : SparseVec T).

Lemma value_in_drop_middle pre o d post p :
  ~ (o <= p < o + length d) ->
  value_in (pre ++ (o, d) :: post) p = value_in (pre ++ post) p.
Proof.
  intros H. induction pre as [|[o' d'] pre IH]; cbn [app value_in].
  - decide_cmp; reflexivity.
  - destruct ((o' <=? p) && (p <? o' + length d')); [reflexivity|exact IH].
Qed.

Lemma value_in_skip_prefix pre bs p :
  Forall (fun b => fst b + length (snd b) <= p) pre ->
  value_in (pre ++ bs) p = value_in bs p.
Proof.
  induction pre as [|[o d] pre IH]; intros H; [reflexivity|].
  inversion H as [|? ? Hb Hpre]; subst. cbn [app].
  rewrite value_in_past by exact Hb. apply IH, Hpre.
Qed.

(** A block holding index [p] makes the lookup of [p] succeed. *)
Lemma value_in_covered bs o d p :
  In (o, d) bs -> o <= p < o + length d -> value_in bs p <> None.
Proof.
  induction bs as [|[o' d'] bs IH]; intros Hin Hp; [contradiction|].
  cbn [value_in]. destruct ((o' <=? p) && (p <? o' + length d')) eqn:Hc.
  - apply andb_true_iff in Hc as [H1 H2]. apply Nat.ltb_lt in H2. apply Nat.leb_le in H1.
    apply nth_error_Some. lia.
  - destruct Hin as [E|Hin].
    + injection E as <- <-. apply andb_false_iff in Hc as [H|H];
        [apply Nat.leb_gt in H | apply Nat.ltb_ge in H]; lia.
    + exact (IH Hin Hp).
Qed.

Lemma insert_vec_values s start vec s' :
  reachable s -> insert_vec s start vec = Returns s' ->
  forall p, value_at s' p =
    if (start <=? p) && (p <? start + length vec)
    then nth_error vec (p - start) else value_at s p.
Proof.
  intros Hr Hins p.
  destruct (insert_vec_split s start vec) as (pre & post & Hbs & _ & _ & Heq).
  rewrite Hins in Heq. destruct (prev_ok start pre) eqn:Hp; cbn [andb] in Heq; [|discriminate].
  destruct (_ && _); [|discriminate]. injection Heq as Heq. subst s'.
  pose proof (reachable_sorted s Hr) as Hs. rewrite Hbs in Hs.
  unfold value_at; cbn [sv_blocks]. rewrite Hbs.
  destruct ((start <=? p) && (p <? start + length vec)) eqn:Hc.
  - apply andb_true_iff in Hc as [H1 H2]. apply Nat.leb_le in H1. apply Nat.ltb_lt in H2.
    rewrite value_in_skip_prefix.
    + cbn [value_in]. decide_cmp. reflexivity.
    + apply Forall_forall. intros b Hb. pose proof (prev_ok_all start pre post Hs Hp b Hb). lia.
  - apply value_in_drop_middle. apply andb_false_iff in Hc as [H|H];
      [apply Nat.leb_gt in H | apply Nat.ltb_ge in H]; lia.
Qed.

Lemma iter_range_bounds s r :
  it_position (iter_range s r) = r_start r /\ it_len (iter_range s r) = r_end r.
Proof. unfold iter_range. destruct (discard_before _ _). split; reflexivity. Qed.

Lemma iter_values s :
  reachable s -> Forall (fun b => snd b <> []) (sv_blocks s) ->
  iter_items (iter s) = map (value_at s) (seq 0 (sv_len s)).
Proof.
  intros Hr Hne. rewrite (iter_items_inv _ _ (iter_inv_iter s (reachable_sorted s Hr) Hne)).
  unfold iter; cbn [it_position it_len]. rewrite Nat.sub_0_r. reflexivity.
Qed.

Lemma iter_range_values s r :
  reachable s -> Forall (fun b => snd b <> []) (sv_blocks s) ->
  iter_items (iter_range s r) = map (value_at s) (seq (r_start r) (r_end r - r_start r)).
Proof.
  intros Hr Hne. rewrite (iter_items_inv _ _ (iter_inv_range s r (reachable_sorted s Hr) Hne)).
  destruct (iter_range_bounds s r) as [-> ->]. reflexivity.
Qed.

Lemma firstn_seq n a k : firstn n (seq a k) = seq a (Nat.min n k).
Proof.
  revert a k; induction n as [|n IH]; intros a k; [reflexivity|].
  destruct k as [|k]; [reflexivity|]. cbn [seq firstn Nat.min]. rewrite IH. reflexivity.
Qed.

Lemma map_none_seq a k : map (fun _ => @None T) (seq a k) = repeat None k.
Proof. revert a; induction k as [|k IH]; intros a; [reflexivity|]. simpl. f_equal. apply IH. Qed.

Lemma nth_error_map_seq (f : nat -> option T) a k i :
  nth_error (map f (seq a k)) i = if i <? k then Some (f (a + i)) else None.
Proof.
  revert a i; induction k as [|k IH]; intros a i.
  - destruct i; reflexivity.
  - destruct i as [|i]; cbn [seq map nth_error].
    + rewrite Nat.add_0_r. reflexivity.
    + rewrite IH. destruct (Nat.ltb_spec i k), (Nat.ltb_spec (S i) (S k)); try lia;
        [|reflexivity]. do 2 f_equal. lia.
Qed.

Lemma value_at_from_vec (v : list T) p : value_at (from_vec v) p = nth_error v p.
Proof.
  unfold value_at, from_vec; cbn [sv_blocks value_in]. rewrite Nat.add_0_l.
  destruct (Nat.ltb_spec p (length v)); cbn [andb Nat.leb].
  - rewrite Nat.sub_0_r. reflexivity.
  - symmetry. apply nth_error_None. lia.
Qed.

Lemma map_nth_error_seq (v : list T) : map (fun p => nth_error v p) (seq 0 (length v)) = map Some v.
Proof.
  induction v as [|x v IH]; [reflexivity|].
  cbn [length seq map]. rewrite <- seq_shift, map_map. cbn [nth_error]. f_equal. exact IH.
Qed.

Lemma scan_loop_none_run base i k lo c :
  scan_loop base i (repeat (@None T) k) (lo, Some c) = (lo, Some c).
Proof. revert i; induction k as [|k IH]; intros i; [reflexivity|]. apply IH. Qed.

Lemma longest_gap_all_none (w : range) k :
  longest_gap w (repeat (@None T) (S k)) = Some (mk_range (r_start w) (r_end w)).
Proof.
  unfold longest_gap. cbn [repeat scan_loop scan_step].
  rewrite scan_loop_none_run, Nat.add_0_r. reflexivity.
Qed.

Lemma scan_loop_all_some base i (items : list (option T)) lo :
  Forall (fun x => x <> None) items -> scan_loop base i items (lo, None) = (lo, None).
Proof.
  revert i; induction items as [|x items IH]; intros i H; [reflexivity|].
  inversion H as [|? ? Hx Hrest]; subst. destruct x as [y|]; [|congruence].
  apply IH, Hrest.
Qed.

Lemma next_request_for_view_returns (data : SparseVec T) view :
  range_len view <> 0 -> overflows (r_end view + range_len view / 2) = false ->
  next_request_for_view data view =
    Returns (longest_gap (should_load_window data view)
              (iter_items (iter_range data (should_load_window data view)))).
Proof.
  intros Hne Hov. unfold next_request_for_view, should_load_window.
  rewrite (proj2 (Nat.eqb_neq _ _) Hne). cbv zeta. rewrite Hov.
  rewrite (Nat.min_comm (len data)). reflexivity.
Qed.

(** What a range returned by the planner satisfies on a container whose
    blocks are all non-empty. *)
Lemma request_gap_facts s view r :
  reachable s -> Forall (fun b => snd b <> []) (sv_blocks s) ->
  next_request_for_view s view = Returns (Some r) ->
  r_start r < r_end r /\ r_end r <= r_end view + range_len view / 2 /\
  overflows (r_end view + range_len view / 2) = false /\
  (forall p, r_start r <= p < r_end r -> value_at s p = None).
Proof.
  intros Hr Hne Heq.
  assert (Hv : range_len view <> 0).
  { intros H0. unfold next_request_for_view in Heq. rewrite H0 in Heq. discriminate. }
  assert (Hov : overflows (r_end view + range_len view / 2) = false).
  { unfold next_request_for_view in Heq. rewrite (proj2 (Nat.eqb_neq _ _) Hv) in Heq.
    cbv zeta in Heq. destruct (overflows (r_end view + range_len view / 2));
      [discriminate|reflexivity]. }
  pose proof (next_request_for_view_scan s view _ Hv Heq) as Hres.
  set (w := should_load_window s view) in *.
  assert (Hwe : r_end w <= r_end view + range_len view / 2)
    by (unfold w, should_load_window; cbn [r_end]; lia).
  destruct (le_lt_dec (r_start w) (r_end w)) as [Hw|Hw].
  2:{ rewrite (longest_gap_empty_window s w Hw) in Hres. discriminate. }
  destruct (longest_gap_window s w Hw) as [Hlen Hg].
  rewrite Hg in Hres.
  pose proof (longest_gap_correct (r_start w) (iter_items (iter_range s w))) as Hc.
  cbv zeta in Hc. destruct Hc as [Hok _]. rewrite <- Hres in Hok.
  unfold longest_ok, first_longest, gap_run, run_upto in Hok.
  destruct Hok as (((Ha & Hlt & Hle & Habs & _) & _) & _).
  split; [exact Hlt|]. split; [lia|]. split; [exact Hov|].
  intros p Hp. specialize (Habs p Hp). unfold absent_at in Habs.
  rewrite (iter_range_values s w Hr Hne), nth_error_map_seq in Habs.
  destruct (Nat.ltb_spec (p - r_start w) (r_end w - r_start w)); [|discriminate].
  replace (r_start w + (p - r_start w)) with p in Habs by lia.
  destruct (value_at s p); [discriminate|reflexivity].
Qed.

End Lookup.

(** A well-formed container: two non-empty blocks with a gap between and
    after them. *)
Definition two_blocks : SparseVec nat := mk_sparse_vec 6 [(1, [10; 11]); (4, [12])].

Lemma two_blocks_reachable : reachable two_blocks.
Proof.
  apply (reach_insert (mk_sparse_vec 6 [(1, [10; 11])]) 4 [12]); [|reflexivity].
  apply (reach_insert (with_len 6) 1 [10; 11]); [constructor|reflexivity].
Qed.

Lemma two_blocks_nonempty : Forall (fun b => snd b <> []) (sv_blocks two_blocks).
Proof. repeat constructor; discriminate. Qed.

(** The container of the repository test [request_half_after]. *)
Definition first_ten : SparseVec nat := mk_sparse_vec 20 [(0, seq 0 10)].

Lemma first_ten_reachable : reachable first_ten.
Proof. apply (reach_insert (with_len 20) 0 (seq 0 10)); [constructor|reflexivity]. Qed.

Lemma first_ten_nonempty : Forall (fun b => snd b <> []) (sv_blocks first_ten).
Proof. repeat constructor; discriminate. Qed.


(** X2: on a reachable container whose blocks are all non-empty, [iter]
    yields, for each index below [len], the element stored there, [None]
    where no block holds the index. *)
Theorem iter_yields_stored_values {T} (s : SparseVec T) :
  reachable s -> Forall (fun b => snd b <> []) (sv_blocks s) ->
  iter_items (iter s) = map (value_at s) (seq 0 (sv_len s)).
Proof. apply iter_values. Qed.

Lemma iter_yields_stored_values_witness :
  reachable two_blocks /\ Forall (fun b => snd b <> []) (sv_blocks two_blocks) /\
  iter_items (iter two_blocks) = map (value_at two_blocks) (seq 0 (sv_len two_blocks)).
Proof.
  split; [exact two_blocks_reachable|]. split; [exact two_blocks_nonempty|].
  apply (iter_yields_stored_values two_blocks two_blocks_reachable two_blocks_nonempty).
Defined.

(** X3: under the same conditions [iter_range(start..end)] yields the
    stored element (or [None]) of each index of [[start, end)]. *)
Theorem iter_range_yields_stored_values {T} (s : SparseVec T) (r : range) :
  reachable s -> Forall (fun b => snd b <> []) (sv_blocks s) ->
  iter_items (iter_range s r) = map (value_at s) (seq (r_start r) (r_end r - r_start r)).
Proof. apply iter_range_values. Qed.

Lemma iter_range_yields_stored_values_witness :
  reachable two_blocks /\ Forall (fun b => snd b <> []) (sv_blocks two_blocks) /\
  iter_items (iter_range two_blocks (mk_range 2 5)) = [Some 11; None; Some 12].
Proof.
  split; [exact two_blocks_reachable|]. split; [exact two_blocks_nonempty|].
  rewrite (iter_range_yields_stored_values two_blocks (mk_range 2 5)
             two_blocks_reachable two_blocks_nonempty).
  reflexivity.
Defined.

(** X4: when no block is empty, [iter_range(start..end)] with
    [end <= len] yields what [iter().skip(start).take(end - start)] yields. *)
Theorem iter_range_is_skip_take {T} (s : SparseVec T) (r : range) :
  reachable s -> Forall (fun b => snd b <> []) (sv_blocks s) -> r_end r <= sv_len s ->
  iter_items (iter_range s r) =
    firstn (r_end r - r_start r) (skipn (r_start r) (iter_items (iter s))).
Proof.
  intros Hr Hne Hle. rewrite (iter_range_values s r Hr Hne), (iter_values s Hr Hne).
  rewrite skipn_map, firstn_map, skipn_seq, firstn_seq. cbn [Nat.add].
  rewrite Nat.min_l by lia. reflexivity.
Qed.

Lemma iter_range_is_skip_take_witness :
  reachable two_blocks /\ Forall (fun b => snd b <> []) (sv_blocks two_blocks) /\
  r_end (mk_range 1 4) <= sv_len two_blocks /\
  iter_items (iter_range two_blocks (mk_range 1 4)) =
    firstn (4 - 1) (skipn 1 (iter_items (iter two_blocks))).
Proof.
  assert (Hle : r_end (mk_range 1 4) <= sv_len two_blocks) by (cbn; lia).
  split; [exact two_blocks_reachable|]. split; [exact two_blocks_nonempty|].
  split; [exact Hle|].
  apply (iter_range_is_skip_take two_blocks (mk_range 1 4)
           two_blocks_reachable two_blocks_nonempty Hle).
Defined.

(** X5: a container made by [with_len(n)] yields [n] times [None] from
    [iter], and [end - start] times [None] from [iter_range(start..end)]. *)
Theorem with_len_yields_none {T} (n : nat) (r : range) :
  iter_items (iter (@with_len T n)) = repeat None n /\
  iter_items (iter_range (@with_len T n) r) = repeat None (r_end r - r_start r).
Proof.
  assert (Hne : Forall (fun b => snd b <> []) (sv_blocks (@with_len T n))) by constructor.
  split.
  - rewrite (iter_values _ (reach_with_len n) Hne).
    change (value_at (@with_len T n)) with (fun _ : nat => @None T).
    apply map_none_seq.
  - rewrite (iter_range_values _ r (reach_with_len n) Hne).
    change (value_at (@with_len T n)) with (fun _ : nat => @None T).
    apply map_none_seq.
Qed.

(** X6: a container made by [From<Vec<T>>] yields every element of the
    vector in order from [iter], and from [iter_range(start..end)] the
    element at each index of [[start, end)], [None] past the vector. *)
Theorem from_vec_yields_vector {T} (v : list T) (r : range) :
  iter_items (iter (from_vec v)) = map Some v /\
  iter_items (iter_range (from_vec v) r) =
    map (fun p => nth_error v p) (seq (r_start r) (r_end r - r_start r)).
Proof.
  destruct v as [|x v].
  - split; [reflexivity|].
    assert (Hi : iter_inv (fun p => nth_error (@nil T) p) (iter_range (from_vec []) r)).
    { unfold iter_inv, cur_blocks, iter_range, from_vec; cbn.
      repeat split; try constructor. intros p _. destruct p; reflexivity. }
    rewrite (iter_items_inv _ _ Hi). destruct (iter_range_bounds (from_vec (@nil T)) r) as [-> ->].
    reflexivity.
  - assert (Hne : Forall (fun b => snd b <> []) (sv_blocks (from_vec (x :: v))))
      by (repeat constructor; discriminate).
    split.
    + rewrite (iter_values _ (reach_from_vec _) Hne).
      rewrite (map_ext _ _ (value_at_from_vec (x :: v))). apply map_nth_error_seq.
    + rewrite (iter_range_values _ r (reach_from_vec _) Hne).
      apply map_ext, value_at_from_vec.
Qed.

(** X7: a successful [insert_vec(start, vec)] keeps [len] and makes the
    index [p] hold [vec[p - start]] for [p] in [[start, start + vec.len())],
    leaving what every other index holds unchanged. *)
Theorem insert_vec_then_lookup {T} (s s' : SparseVec T) start vec :
  reachable s -> insert_vec s start vec = Returns s' ->
  sv_len s' = sv_len s /\
  forall p, value_at s' p =
    if (start <=? p) && (p <? start + length vec)
    then nth_error vec (p - start) else value_at s p.
Proof.
  intros Hr Hins. split; [exact (insert_vec_len s s' start vec Hins)|].
  exact (insert_vec_values s start vec s' Hr Hins).
Qed.

Lemma insert_vec_then_lookup_witness :
  reachable two_blocks /\
  insert_vec two_blocks 3 [7] = Returns (mk_sparse_vec 6 [(1, [10; 11]); (3, [7]); (4, [12])]) /\
  sv_len (mk_sparse_vec 6 [(1, [10; 11]); (3, [7]); (4, [12])]) = sv_len two_blocks /\
  value_at (mk_sparse_vec 6 [(1, [10; 11]); (3, [7]); (4, [12])]) 3 = Some 7.
Proof.
  assert (Hi : insert_vec two_blocks 3 [7]
               = Returns (mk_sparse_vec 6 [(1, [10; 11]); (3, [7]); (4, [12])]))
    by reflexivity.
  destruct (insert_vec_then_lookup _ _ 3 [7] two_blocks_reachable Hi) as [Hl Hv].
  split; [exact two_blocks_reachable|]. split; [exact Hi|]. split; [exact Hl|].
  rewrite Hv. reflexivity.
Defined.

(** X8: on a container made by [with_len(n)], a non-empty view that does
    not overflow gets the whole should-load window back when that window is
    non-empty, and [None] otherwise. *)
Theorem next_request_for_view_with_len {T} (n : nat) (view : range) :
  range_len view <> 0 -> overflows (r_end view + range_len view / 2) = false ->
  next_request_for_view (@with_len T n) view =
    Returns (if r_start (should_load_window (@with_len T n) view)
                <? r_end (should_load_window (@with_len T n) view)
             then Some (should_load_window (@with_len T n) view) else None).
Proof.
  intros Hv Hov. rewrite (next_request_for_view_returns _ view Hv Hov). f_equal.
  set (w := should_load_window (@with_len T n) view).
  assert (Hne : Forall (fun b => snd b <> []) (sv_blocks (@with_len T n))) by constructor.
  rewrite (iter_range_values _ w (reach_with_len n) Hne).
  change (value_at (@with_len T n)) with (fun _ : nat => @None T).
  rewrite map_none_seq.
  destruct (Nat.ltb_spec (r_start w) (r_end w)).
  - replace (r_end w - r_start w) with (S (r_end w - r_start w - 1)) by lia.
    rewrite longest_gap_all_none. destruct w; reflexivity.
  - replace (r_end w - r_start w) with 0 by lia. reflexivity.
Qed.

Lemma next_request_for_view_with_len_witness :
  range_len (mk_range 10 20) <> 0 /\
  overflows (r_end (mk_range 10 20) + range_len (mk_range 10 20) / 2) = false /\
  next_request_for_view (@with_len nat 100) (mk_range 10 20) = Returns (Some (mk_range 5 25)).
Proof.
  assert (Hv : range_len (mk_range 10 20) <> 0) by discriminate.
  assert (Hov : overflows (r_end (mk_range 10 20) + range_len (mk_range 10 20) / 2) = false)
    by reflexivity.
  split; [exact Hv|]. split; [exact Hov|].
  rewrite (next_request_for_view_with_len 100 (mk_range 10 20) Hv Hov). reflexivity.
Defined.

(** X9: when no block is empty and every index of the should-load window
    holds an element, a non-empty view that does not overflow gets [None]. *)
Theorem next_request_for_view_populated {T} (s : SparseVec T) (view : range) :
  reachable s -> Forall (fun b => snd b <> []) (sv_blocks s) ->
  range_len view <> 0 -> overflows (r_end view + range_len view / 2) = false ->
  (forall p, r_start (should_load_window s view) <= p < r_end (should_load_window s view) ->
     value_at s p <> None) ->
  next_request_for_view s view = Returns None.
Proof.
  intros Hr Hne Hv Hov Hpop. rewrite (next_request_for_view_returns _ view Hv Hov). f_equal.
  rewrite (iter_range_values s _ Hr Hne). unfold longest_gap.
  rewrite scan_loop_all_some; [reflexivity|].
  apply Forall_forall. intros x Hx. apply in_map_iff in Hx as (p & <- & Hp).
  apply in_seq in Hp. apply Hpop. lia.
Qed.

Lemma next_request_for_view_populated_witness :
  reachable first_ten /\ Forall (fun b => snd b <> []) (sv_blocks first_ten) /\
  range_len (mk_range 2 6) <> 0 /\
  overflows (r_end (mk_range 2 6) + range_len (mk_range 2 6) / 2) = false /\
  next_request_for_view first_ten (mk_range 2 6) = Returns None.
Proof.
  assert (Hv : range_len (mk_range 2 6) <> 0) by discriminate.
  assert (Hov : overflows (r_end (mk_range 2 6) + range_len (mk_range 2 6) / 2) = false)
    by reflexivity.
  split; [exact first_ten_reachable|]. split; [exact first_ten_nonempty|].
  split; [exact Hv|]. split; [exact Hov|].
  apply (next_request_for_view_populated first_ten (mk_range 2 6)
           first_ten_reachable first_ten_nonempty Hv Hov).
  intros p Hp. cbn in Hp.
  destruct p as [|[|[|[|[|[|[|[|p]]]]]]]]; try lia; discriminate.
Defined.

(** X10: when no block is empty, every index of a range the planner
    returns holds no element. *)
Theorem next_request_for_view_gap_unloaded {T} (s : SparseVec T) (view r : range) :
  reachable s -> Forall (fun b => snd b <> []) (sv_blocks s) ->
  next_request_for_view s view = Returns (Some r) ->
  forall p, r_start r <= p < r_end r -> value_at s p = None.
Proof. intros Hr Hne Heq. apply (request_gap_facts s view r Hr Hne Heq). Qed.

Lemma next_request_for_view_gap_unloaded_witness :
  reachable first_ten /\ Forall (fun b => snd b <> []) (sv_blocks first_ten) /\
  next_request_for_view first_ten (mk_range 0 10) = Returns (Some (mk_range 10 15)) /\
  forall p, 10 <= p < 15 -> value_at first_ten p = None.
Proof.
  assert (Heq : next_request_for_view first_ten (mk_range 0 10) = Returns (Some (mk_range 10 15)))
    by reflexivity.
  split; [exact first_ten_reachable|]. split; [exact first_ten_nonempty|].
  split; [exact Heq|].
  exact (next_request_for_view_gap_unloaded first_ten (mk_range 0 10) (mk_range 10 15)
           first_ten_reachable first_ten_nonempty Heq).
Defined.

(** X11: when no block is empty, inserting a vector of the returned
    range's length at the returned start never panics: the range lies in
    free space and its end does not overflow. *)
Theorem next_request_for_view_insert_fits {T} (s : SparseVec T) (view r : range) (vec : list T) :
  reachable s -> Forall (fun b => snd b <> []) (sv_blocks s) ->
  next_request_for_view s view = Returns (Some r) -> length vec = range_len r ->
  exists s', insert_vec s (r_start r) vec = Returns s'.
Proof.
  intros Hr Hne Heq Hlen.
  destruct (request_gap_facts s view r Hr Hne Heq) as (Hlt & Hle & Hov & Hnone).
  destruct (insert_vec_split s (r_start r) vec) as (pre & post & Hbs & Hpre & Hpost & Hins).
  assert (Hcov : forall o d, In (o, d) (sv_blocks s) -> forall p,
            o <= p < o + length d -> r_start r <= p < r_end r -> False).
  { intros o d Hin p Hp Hpr. exact (value_in_covered _ o d p Hin Hp (Hnone p Hpr)). }
  assert (Hprev : prev_ok (r_start r) pre = true).
  { unfold prev_ok. destruct (rev pre) as [|[o d] rr] eqn:Hrev; [reflexivity|].
    apply Nat.leb_le.
    assert (Hin : In (o, d) pre) by (apply in_rev; rewrite Hrev; left; reflexivity).
    pose proof (proj1 (Forall_forall _ _) Hpre _ Hin) as Ho. cbn in Ho.
    destruct (le_lt_dec (o + length d) (r_start r)) as [Hok|Hbad]; [exact Hok|].
    exfalso. apply (Hcov o d) with (p := r_start r); [|lia|lia].
    rewrite Hbs. apply in_or_app. left. exact Hin. }
  assert (Hnext : next_ok (r_start r + length vec) post = true).
  { unfold next_ok. destruct post as [|[o d] rest]; [reflexivity|].
    apply Nat.leb_le. specialize (Hpost _ _ eq_refl). cbn in Hpost.
    rewrite Hbs in Hne. apply Forall_app in Hne as [_ Hne].
    inversion Hne as [|? ? Hd _]; subst. cbn in Hd.
    destruct d as [|y d]; [congruence|].
    rewrite Hlen. unfold range_len.
    destruct (le_lt_dec (r_end r) o) as [Hok|Hbad]; [lia|].
    exfalso. apply (Hcov o (y :: d)) with (p := o); [|cbn; lia|lia].
    rewrite Hbs. apply in_or_app. right. left. reflexivity. }
  assert (Hfit : overflows (r_start r + length vec) = false).
  { unfold overflows in *. apply N.ltb_ge in Hov. apply N.ltb_ge.
    rewrite Hlen. unfold range_len. lia. }
  rewrite Hins, Hprev, Hfit, Hnext. eexists. reflexivity.
Qed.

Lemma next_request_for_view_insert_fits_witness :
  reachable first_ten /\ Forall (fun b => snd b <> []) (sv_blocks first_ten) /\
  next_request_for_view first_ten (mk_range 0 10) = Returns (Some (mk_range 10 15)) /\
  length (seq 10 5) = range_len (mk_range 10 15) /\
  exists s', insert_vec first_ten 10 (seq 10 5) = Returns s'.
Proof.
  assert (Heq : next_request_for_view first_ten (mk_range 0 10) = Returns (Some (mk_range 10 15)))
    by reflexivity.
  assert (Hl : length (seq 10 5) = range_len (mk_range 10 15)) by reflexivity.
  split; [exact first_ten_reachable|]. split; [exact first_ten_nonempty|].
  split; [exact Heq|]. split; [exact Hl|].
  exact (next_request_for_view_insert_fits first_ten (mk_range 0 10) (mk_range 10 15) (seq 10 5)
           first_ten_reachable first_ten_nonempty Heq Hl).
Defined.

(** X12: after loading a returned range (inserting a vector of its length
    at its start), no later request, for any view, returns a range that
    meets it, while no block is empty. *)
Theorem next_request_for_view_after_load {T} (s s' : SparseVec T) (view view' r r' : range)
    (vec : list T) :
  reachable s -> Forall (fun b => snd b <> []) (sv_blocks s) ->
  next_request_for_view s view = Returns (Some r) -> length vec = range_len r ->
  insert_vec s (r_start r) vec = Returns s' ->
  next_request_for_view s' view' = Returns (Some r') ->
  forall p, r_start r' <= p < r_end r' -> ~ (r_start r <= p < r_end r).
Proof.
  intros Hr Hne Heq Hlen Hins Heq' p Hp Hpr.
  destruct (request_gap_facts s view r Hr Hne Heq) as (Hlt & _ & _ & _).
  assert (Hr' : reachable s') by (eapply reach_insert; eassumption).
  assert (Hne' : Forall (fun b => snd b <> []) (sv_blocks s')).
  { destruct (insert_vec_split s (r_start r) vec) as (pre & post & Hbs & _ & _ & Hsplit).
    rewrite Hins in Hsplit. destruct (_ && _ && _); [|discriminate].
    injection Hsplit as Hsplit. subst s'. cbn [sv_blocks].
    rewrite Hbs in Hne. apply Forall_app in Hne as [H1 H2].
    apply Forall_app. split; [exact H1|]. constructor; [|exact H2].
    cbn. intros E. rewrite E in Hlen. cbn in Hlen. unfold range_len in Hlen. lia. }
  destruct (request_gap_facts s' view' r' Hr' Hne' Heq') as (_ & _ & _ & Hnone).
  pose proof (Hnone p Hp) as Hn.
  rewrite (insert_vec_values s (r_start r) vec s' Hr Hins p) in Hn.
  destruct (Nat.leb_spec (r_start r) p); [|lia].
  destruct (Nat.ltb_spec p (r_start r + length vec)) as [|Hge];
    [|rewrite Hlen in Hge; unfold range_len in Hge; lia].
  cbn [andb] in Hn. apply nth_error_None in Hn. lia.
Qed.

Lemma next_request_for_view_after_load_witness :
  reachable first_ten /\ Forall (fun b => snd b <> []) (sv_blocks first_ten) /\
  next_request_for_view first_ten (mk_range 0 10) = Returns (Some (mk_range 10 15)) /\
  length (seq 10 5) = range_len (mk_range 10 15) /\
  insert_vec first_ten 10 (seq 10 5) = Returns (mk_sparse_vec 20 [(0, seq 0 10); (10, seq 10 5)]) /\
  next_request_for_view (mk_sparse_vec 20 [(0, seq 0 10); (10, seq 10 5)]) (mk_range 10 20)
    = Returns (Some (mk_range 15 20)) /\
  forall p, 15 <= p < 20 -> ~ (10 <= p < 15).
Proof.
  assert (Heq : next_request_for_view first_ten (mk_range 0 10) = Returns (Some (mk_range 10 15)))
    by reflexivity.
  assert (Hl : length (seq 10 5) = range_len (mk_range 10 15)) by reflexivity.
  assert (Hi : insert_vec first_ten 10 (seq 10 5)
               = Returns (mk_sparse_vec 20 [(0, seq 0 10); (10, seq 10 5)])) by reflexivity.
  assert (Heq' : next_request_for_view (mk_sparse_vec 20 [(0, seq 0 10); (10, seq 10 5)])
                   (mk_range 10 20) = Returns (Some (mk_range 15 20))) by reflexivity.
  split; [exact first_ten_reachable|]. split; [exact first_ten_nonempty|].
  split; [exact Heq|]. split; [exact Hl|]. split; [exact Hi|]. split; [exact Heq'|].
  exact (next_request_for_view_after_load first_ten _ (mk_range 0 10) (mk_range 10 20)
           (mk_range 10 15) (mk_range 15 20) (seq 10 5)
           first_ten_reachable first_ten_nonempty Heq Hl Hi Heq').
Defined.

Section Commute.

Context {T : Type}.

Implicit Types (s : SparseVec T) (l : list (nat * list T)).

Lemma insert_vec_perm s start vec s' :
  insert_vec s start vec = Returns s' ->
  Permutation (sv_blocks s') ((start, vec) :: sv_blocks s).
Proof.
  destruct (insert_vec_split s start vec) as (pre & post & Hbs & _ & _ & Heq).
  intros Hins. rewrite Hins in Heq. destruct (_ && _ && _); [|discriminate].
  injection Heq as Heq. subst s'. cbn [sv_blocks]. rewrite Hbs.
  apply Permutation_sym, Permutation_middle.
Qed.

(** Ordered lists of non-empty blocks holding the same blocks are equal. *)
Lemma sorted_perm_unique l1 l2 :
  Forall (fun b => snd b <> []) l1 -> StronglySorted before l1 -> StronglySorted before l2 ->
  Permutation l1 l2 -> l1 = l2.
Proof.
  revert l2; induction l1 as [|a t IH]; intros l2 Hne H1 H2 Hp.
  - symmetry. apply Permutation_nil, Hp.
  - destruct l2 as [|b t2]; [apply Permutation_sym, Permutation_nil in Hp; discriminate|].
    inversion Hne as [|? ? Ha Hnet]; subst.
    inversion H1 as [|? ? H1t Hf1]; subst. inversion H2 as [|? ? H2t Hf2]; subst.
    assert (a = b) as <-.
    { destruct (Permutation_in a Hp (or_introl eq_refl)) as [->|Hat2]; [reflexivity|].
      destruct (Permutation_in b (Permutation_sym Hp) (or_introl eq_refl)) as [<-|Hbt];
        [reflexivity|].
      exfalso. pose proof (proj1 (Forall_forall _ _) Hf1 b Hbt) as Hab.
      pose proof (proj1 (Forall_forall _ _) Hf2 a Hat2) as Hba.
      unfold before in Hab, Hba. destruct (snd a) as [|x d]; [congruence|].
      cbn in Hab, Hba. lia. }
    f_equal. apply IH; [exact Hnet|exact H1t|exact H2t|].
    exact (Permutation_cons_inv Hp).
Qed.

End Commute.

(** X13: inserting two non-empty vectors into a container whose blocks
    are all non-empty gives the same container in either order, when both
    orders succeed. *)
Theorem insert_vec_commute {T} (s s1 s2 s12 s21 : SparseVec T) a va b vb :
  reachable s -> Forall (fun blk => snd blk <> []) (sv_blocks s) -> va <> [] -> vb <> [] ->
  insert_vec s a va = Returns s1 -> insert_vec s1 b vb = Returns s12 ->
  insert_vec s b vb = Returns s2 -> insert_vec s2 a va = Returns s21 ->
  s12 = s21.
Proof.
  intros Hr Hne Ha Hb H1 H12 H2 H21.
  assert (Hr12 : reachable s12) by (do 2 (eapply reach_insert; [|eassumption]); exact Hr).
  assert (Hr21 : reachable s21) by (do 2 (eapply reach_insert; [|eassumption]); exact Hr).
  assert (Hp12 : Permutation (sv_blocks s12) ((b, vb) :: (a, va) :: sv_blocks s)).
  { eapply perm_trans; [exact (insert_vec_perm _ _ _ _ H12)|].
    apply perm_skip, (insert_vec_perm _ _ _ _ H1). }
  assert (Hp21 : Permutation (sv_blocks s21) ((a, va) :: (b, vb) :: sv_blocks s)).
  { eapply perm_trans; [exact (insert_vec_perm _ _ _ _ H21)|].
    apply perm_skip, (insert_vec_perm _ _ _ _ H2). }
  assert (Hblocks : sv_blocks s12 = sv_blocks s21).
  { apply sorted_perm_unique.
    - apply Forall_forall. intros x Hx. apply (Permutation_in x Hp12) in Hx.
      destruct Hx as [<-|[<-|Hx]]; [exact Hb|exact Ha|].
      exact (proj1 (Forall_forall _ _) Hne x Hx).
    - exact (reachable_sorted _ Hr12).
    - exact (reachable_sorted _ Hr21).
    - eapply perm_trans; [exact Hp12|]. eapply perm_trans; [apply perm_swap|].
      apply Permutation_sym, Hp21. }
  assert (Hlen : sv_len s12 = sv_len s21).
  { rewrite (insert_vec_len _ _ _ _ H12), (insert_vec_len _ _ _ _ H1).
    rewrite (insert_vec_len _ _ _ _ H21), (insert_vec_len _ _ _ _ H2). reflexivity. }
  destruct s12, s21. cbn in *. congruence.
Qed.

Lemma insert_vec_commute_witness :
  reachable two_blocks /\ Forall (fun blk => snd blk <> []) (sv_blocks two_blocks) /\
  [5] <> [] /\ [7] <> [] /\
  insert_vec two_blocks 0 [5] = Returns (mk_sparse_vec 6 [(0, [5]); (1, [10; 11]); (4, [12])]) /\
  insert_vec (mk_sparse_vec 6 [(0, [5]); (1, [10; 11]); (4, [12])]) 3 [7]
    = Returns (mk_sparse_vec 6 [(0, [5]); (1, [10; 11]); (3, [7]); (4, [12])]) /\
  insert_vec two_blocks 3 [7] = Returns (mk_sparse_vec 6 [(1, [10; 11]); (3, [7]); (4, [12])]) /\
  insert_vec (mk_sparse_vec 6 [(1, [10; 11]); (3, [7]); (4, [12])]) 0 [5]
    = Returns (mk_sparse_vec 6 [(0, [5]); (1, [10; 11]); (3, [7]); (4, [12])]) /\
  mk_sparse_vec 6 [(0, [5]); (1, [10; 11]); (3, [7]); (4, [12])]
    = mk_sparse_vec 6 [(0, [5]); (1, [10; 11]); (3, [7]); (4, [12])].
Proof.
  assert (Ha : [5] <> []) by discriminate. assert (Hb : [7] <> []) by discriminate.
  assert (H1 : insert_vec two_blocks 0 [5]
               = Returns (mk_sparse_vec 6 [(0, [5]); (1, [10; 11]); (4, [12])])) by reflexivity.
  assert (H12 : insert_vec (mk_sparse_vec 6 [(0, [5]); (1, [10; 11]); (4, [12])]) 3 [7]
    = Returns (mk_sparse_vec 6 [(0, [5]); (1, [10; 11]); (3, [7]); (4, [12])])) by reflexivity.
  assert (H2 : insert_vec two_blocks 3 [7]
               = Returns (mk_sparse_vec 6 [(1, [10; 11]); (3, [7]); (4, [12])])) by reflexivity.
  assert (H21 : insert_vec (mk_sparse_vec 6 [(1, [10; 11]); (3, [7]); (4, [12])]) 0 [5]
    = Returns (mk_sparse_vec 6 [(0, [5]); (1, [10; 11]); (3, [7]); (4, [12])])) by reflexivity.
  split; [exact two_blocks_reachable|]. split; [exact two_blocks_nonempty|].
  split; [exact Ha|]. split; [exact Hb|]. split; [exact H1|]. split; [exact H12|].
  split; [exact H2|]. split; [exact H21|].
  exact (insert_vec_commute two_blocks _ _ _ _ 0 [5] 3 [7]
           two_blocks_reachable two_blocks_nonempty Ha Hb H1 H12 H2 H21).
Defined.
